(** * DroneDevTools relay core: RTCM3 frame decoder, NTRIP handshake,
      MAVLink SERIAL_CONTROL tunnel and client broadcast.

    Shallow embedding of the Python sources under [RTKtools/RTKbaseTester]
    ([ntrip_test.py], [ntrip_proxy.py], [ntrip_to_rover.py],
    [rtk_rover_complete.py], [rtk_bridge.py], [uPrecise_forward.py]).

    Conventions.
    - A Python [bytes]/[bytearray] is a [list Z]; a well-formed byte is in
      [0, 256).  Text obtained by [decode("iso-8859-1")] is the same list
      (that codec maps byte n to code point n).
    - Indices and lengths are [nat]; [find]/[index] return [option nat]
      ([None] for Python's [-1] or [ValueError]).
    - [while] loops whose recursion is not structural are defined with
      Equations by a decreasing measure; the loop body is a separate
      function returning either "continue with this state" or "break". *)

From Stdlib Require Import String Ascii.
From Stdlib Require Import List ZArith Lia Bool Arith.
From Equations Require Import Equations.
From Equations.Prop Require Import Logic.
Import ListNotations.

Set Implicit Arguments.
Local Open Scope Z_scope.

(* ===================================================================== *)
(** ** Python byte-string primitives *)
(* ===================================================================== *)

Module Bytes.

Definition byte := Z.
Definition bytes := list byte.

Definition is_byte (b : byte) : Prop := 0 <= b < 256.

(** Code points of an ASCII literal such as ["ICY 200"]. *)
Definition of_string (s : string) : bytes :=
  map (fun c => Z.of_nat (nat_of_ascii c)) (list_ascii_of_string s).

Definition CR : byte := 13.
Definition LF : byte := 10.
Definition CRLF : bytes := [CR; LF].
Definition CRLFCRLF : bytes := [CR; LF; CR; LF].

(** [l[lo:hi]] for [0 <= lo] and [0 <= hi]. *)
Definition slice {A} (l : list A) (lo hi : nat) : list A :=
  firstn (hi - lo) (skipn lo l).

(** [bytearray.index(x)]: position of the first element equal to [x]. *)
Fixpoint index (x : byte) (buf : bytes) : option nat :=
  match buf with
  | [] => None
  | b :: rest => if b =? x then Some 0%nat else option_map S (index x rest)
  end.

(** [s.startswith(pat)]. *)
Fixpoint startswith (pat s : bytes) : bool :=
  match pat, s with
  | [], _ => true
  | _ :: _, [] => false
  | p :: pat', c :: s' => (p =? c) && startswith pat' s'
  end.

(** [s.find(pat)] for a non-empty pattern. *)
Fixpoint find (pat s : bytes) : option nat :=
  match s with
  | [] => None
  | _ :: s' => if startswith pat s then Some 0%nat
               else option_map S (find pat s')
  end.

(** [s.find(pat, start)] for a non-empty pattern. *)
Definition find_from (pat s : bytes) (start : nat) : option nat :=
  option_map (Nat.add start) (find pat (skipn start s)).

(** [pat in s]. *)
Definition contains (pat s : bytes) : bool :=
  match find pat s with Some _ => true | None => false end.

(** [s.split(sep, 1)[0]]. *)
Definition split_head (sep s : bytes) : bytes :=
  match find sep s with Some i => firstn i s | None => s end.

(** [is_all_zero(data)] of [rtk_bridge.py] and [uPrecise_forward.py]. *)
Fixpoint is_all_zero (data : bytes) : bool :=
  match data with
  | [] => true
  | b :: rest => if negb (b =? 0) then false else is_all_zero rest
  end.

End Bytes.
Import Bytes.

(* ===================================================================== *)
(** ** RTCM3 frame decoder
       ([ntrip_test.read_rtcm_stream], [RTKRoverComplete.validate_rtcm_data]) *)
(* ===================================================================== *)

Module Rtcm.

Definition SYNC : byte := 0xD3.

(** What the parse loop does with a buffer holding no sync byte:
    [read_rtcm_stream] clears it, [validate_rtcm_data] clears it only when
    it is longer than 1024 bytes. *)
Inductive garbage_policy : Type :=
| ClearAlways
| ClearAbove (cap : nat).

Definition on_no_sync (p : garbage_policy) (buf : bytes) : bytes :=
  match p with
  | ClearAlways => []
  | ClearAbove cap => if (cap <? length buf)%nat then [] else buf
  end.

(** [length = ((header[0] & 0x03) << 8) | header[1]]. *)
Definition declared_length (h0 h1 : byte) : Z :=
  Z.lor (Z.shiftl (Z.land h0 0x03) 8) h1.

(** [frame_len = 3 + length + 3]; on bytes [length] is never negative
    (see [declared_length_range]). *)
Definition frame_len (h0 h1 : byte) : nat :=
  3 + Z.to_nat (declared_length h0 h1) + 3.

(** One pass through the body of the [while True] parse loop.
    [inl (frame, buf')]: a frame was cut out, the loop goes round again on
    [buf']; [inr buf']: the loop breaks and [buf'] is retained. *)
Definition parse_step (p : garbage_policy) (buf : bytes)
  : (bytes * bytes) + bytes :=
  match index SYNC buf with
  | None => inr (on_no_sync p buf)
  | Some sync_index =>
      if (length buf - sync_index <? 3)%nat then
        inr (skipn sync_index buf)
      else
        let header := slice buf (sync_index + 1) (sync_index + 3) in
        let flen := frame_len (nth 0 header 0) (nth 1 header 0) in
        if (length buf - sync_index <? flen)%nat then
          inr (skipn sync_index buf)
        else
          let frame := slice buf sync_index (sync_index + flen) in
          inl (frame, skipn (sync_index + flen) buf)
  end.

(** The parse loop: the frames cut out, in order, and the retained buffer.
    Every frame removes at least six bytes, so the loop ends. *)
Equations? parse_loop (p : garbage_policy) (buf : bytes)
  : list bytes * bytes by wf (length buf) lt :=
  parse_loop p buf with inspect (parse_step p buf) => {
    | exist _ (inr buf') _ => ([], buf');
    | exist _ (inl (frame, rest)) Hstep =>
        let r := parse_loop p rest in (frame :: fst r, snd r) }.
Proof.
  unfold parse_step in Hstep.
  destruct (index SYNC buf) as [i|]; [|discriminate].
  destruct (length buf - i <? 3)%nat eqn:H3; [discriminate|].
  destruct (length buf - i <? frame_len _ _)%nat eqn:Hfl; [discriminate|].
  injection Hstep as _ <-.
  apply Nat.ltb_ge in H3, Hfl.
  rewrite length_skipn. unfold frame_len in *. lia.
Qed.

(** [buffer.extend(chunk)] followed by the parse loop: one call of the
    decoder on one chunk. *)
Definition feed (p : garbage_policy) (buf chunk : bytes)
  : list bytes * bytes :=
  parse_loop p (buf ++ chunk).

(** The decoder called on successive chunks; the frames of all calls in
    the order they were cut out, and the buffer left at the end. *)
Fixpoint feed_all (p : garbage_policy) (buf : bytes) (chunks : list bytes)
  : list bytes * bytes :=
  match chunks with
  | [] => ([], buf)
  | chunk :: later =>
      let r := feed p buf chunk in
      let r' := feed_all p (snd r) later in
      (fst r ++ fst r', snd r')
  end.

(** [frame[3:-3]]. *)
Definition frame_payload (frame : bytes) : bytes :=
  slice frame 3 (length frame - 3).

(** [((payload[0] << 4) | (payload[1] >> 4)) & 0x0FFF]. *)
Definition msg_type_bits (payload : bytes) : Z :=
  Z.land (Z.lor (Z.shiftl (nth 0 payload 0) 4)
                (Z.shiftr (nth 1 payload 0) 4)) 0x0FFF.

(** [parse_rtcm3_message_type] of [ntrip_test.py]. *)
Definition parse_rtcm3_message_type (payload : bytes) : Z :=
  if (length payload <? 2)%nat then -1 else msg_type_bits payload.

(** *** [ntrip_test.read_rtcm_stream]: per-type counters *)

(** A [collections.Counter]: absent keys count 0. *)
Definition Counter := Z -> nat.

Definition counter_incr (c : Counter) (k : Z) : Counter :=
  fun k' => if k' =? k then S (c k') else c k'.

Record stream_state : Type := {
  buffer : bytes;
  total_bytes : nat;
  msg_counts : Counter
}.

(** Lines 186-189: the accounting done for one extracted frame. *)
Definition count_frame (counts : Counter) (frame : bytes) : Counter :=
  let payload := frame_payload frame in
  let msg_type := parse_rtcm3_message_type payload in
  if 0 <? msg_type then counter_incr counts msg_type else counts.

(** Lines 151-189: what one received chunk does to the reader's state. *)
Definition read_rtcm_stream_chunk (st : stream_state) (chunk : bytes)
  : stream_state :=
  let r := feed ClearAlways (buffer st) chunk in
  {| buffer := snd r;
     total_bytes := total_bytes st + length chunk;
     msg_counts := fold_left count_frame (fst r) (msg_counts st) |}.

(** *** [RTKRoverComplete.validate_rtcm_data] *)

(** A [time.time()] reading; it is only stored, never computed with. *)
Definition timestamp := Z.

(** A Python [set] of message types, kept without duplicates. *)
Fixpoint set_add (x : Z) (s : list Z) : list Z :=
  match s with
  | [] => [x]
  | y :: s' => if y =? x then s else y :: set_add x s'
  end.

Record rover_state : Type := {
  rtcm_buffer : bytes;
  rtcm_valid_frames : nat;
  rtcm_msg_types : list Z;
  rtcm_last_received_time : option timestamp;
  rtcm_first_frame_time : option timestamp
}.

(** Lines 426-438: the accounting done for one extracted frame. *)
Definition validate_frame (current_time : timestamp) (st : rover_state)
  (frame : bytes) : rover_state :=
  if (6 <=? length frame)%nat then
    let payload := frame_payload frame in
    if (2 <=? length payload)%nat then
      let msg_type := msg_type_bits payload in
      if 0 <? msg_type then
        {| rtcm_buffer := rtcm_buffer st;
           rtcm_valid_frames := rtcm_valid_frames st + 1;
           rtcm_msg_types := set_add msg_type (rtcm_msg_types st);
           rtcm_last_received_time := Some current_time;
           rtcm_first_frame_time :=
             match rtcm_first_frame_time st with
             | None => Some current_time
             | Some t => Some t
             end |}
      else st
    else st
  else st.

Definition with_buffer (st : rover_state) (buf : bytes) : rover_state :=
  {| rtcm_buffer := buf;
     rtcm_valid_frames := rtcm_valid_frames st;
     rtcm_msg_types := rtcm_msg_types st;
     rtcm_last_received_time := rtcm_last_received_time st;
     rtcm_first_frame_time := rtcm_first_frame_time st |}.

(** [validate_rtcm_data(self, data)]: the buffer is extended and parsed,
    each frame cut out is accounted for in the order of extraction. *)
Definition validate_rtcm_data (current_time : timestamp) (st : rover_state)
  (data : bytes) : rover_state :=
  let r := feed (ClearAbove 1024) (rtcm_buffer st) data in
  fold_left (validate_frame current_time) (fst r) (with_buffer st (snd r)).

(** [RTKRoverComplete.__init__], the decoder's part. *)
Definition rover_init : rover_state :=
  {| rtcm_buffer := [];
     rtcm_valid_frames := 0;
     rtcm_msg_types := [];
     rtcm_last_received_time := None;
     rtcm_first_frame_time := None |}.

End Rtcm.

(* ===================================================================== *)
(** ** Sockets as seen by the relay *)
(* ===================================================================== *)

Module Net.

(** A connected socket: the bytes written to it so far, whether this side
    has closed it, and whether the peer is gone (a write then raises). *)
Record socket_state : Type := {
  sent : bytes;
  closed : bool;
  broken : bool
}.

Definition sock := nat.

(** The sockets of the process, by identity. *)
Definition net := sock -> socket_state.

Definition update (n : net) (s : sock) (st : socket_state) : net :=
  fun s' => if (s' =? s)%nat then st else n s'.

Definition write_fails (n : net) (s : sock) : bool :=
  closed (n s) || broken (n s).

(** [sock.sendall(data)]: [None] when it raises.  The write is modelled as
    whole or not at all.  In Python a write that raises may have sent part
    of the data; every caller drops and closes the socket then, and the
    theorems on the callers leave open which bytes such a socket has
    received. *)
Definition sendall (n : net) (s : sock) (data : bytes) : option net :=
  if write_fails n s then None
  else Some (update n s {| sent := sent (n s) ++ data;
                           closed := closed (n s);
                           broken := broken (n s) |}).

(** [sock.close()]. *)
Definition close (n : net) (s : sock) : net :=
  update n s {| sent := sent (n s); closed := true; broken := broken (n s) |}.

End Net.

(* ===================================================================== *)
(** ** [ntrip_proxy.ClientManager] *)
(* ===================================================================== *)

Module Relay.
Import Net.

Definition address := (string * Z)%type.
Definition client := (sock * address)%type.

Definition client_eqb (a b : client) : bool :=
  (fst a =? fst b)%nat && String.eqb (fst (snd a)) (fst (snd b))
  && (snd (snd a) =? snd (snd b)).

(** [list.remove(x)]: drops the first element equal to [x]; the
    [ValueError] of an absent element is swallowed by the callers. *)
Fixpoint list_remove (x : client) (l : list client) : list client :=
  match l with
  | [] => []
  | y :: l' => if client_eqb y x then l' else y :: list_remove x l'
  end.

Definition add_client (clients : list client) (c : client) : list client :=
  clients ++ [c].

Definition remove_client (clients : list client) (c : client)
  : list client :=
  list_remove c clients.

(** First loop of [broadcast]: write to every client, collect those whose
    write raised. *)
Fixpoint broadcast_send (todo : list client) (data : bytes) (n : net)
  (disconnected : list client) : net * list client :=
  match todo with
  | [] => (n, disconnected)
  | c :: todo' =>
      match sendall n (fst c) data with
      | Some n' => broadcast_send todo' data n' disconnected
      | None => broadcast_send todo' data n (disconnected ++ [c])
      end
  end.

(** Second loop of [broadcast]: remove and close the collected clients. *)
Fixpoint broadcast_prune (disconnected clients : list client) (n : net)
  : list client * net :=
  match disconnected with
  | [] => (clients, n)
  | c :: rest => broadcast_prune rest (list_remove c clients) (close n (fst c))
  end.

Definition broadcast (clients : list client) (n : net) (data : bytes)
  : list client * net :=
  let r := broadcast_send clients data n [] in
  broadcast_prune (snd r) clients (fst r).

Definition get_count (clients : list client) : nat := length clients.

End Relay.

(* ===================================================================== *)
(** ** SERIAL_CONTROL tunnel ([rtk_bridge.py], [uPrecise_forward.py]) *)
(* ===================================================================== *)

Module Tunnel.
Import Net.

Definition FLAG_REPLY : Z := 1.
Definition FLAG_RESPOND : Z := 2.
Definition FLAG_EXCLUSIVE : Z := 4.
Definition FLAG_BLOCKING : Z := 8.
Definition FLAG_MULTI : Z := 16.

(** The arguments of [mav.mav.serial_control_send], also the fields of a
    received SERIAL_CONTROL message. *)
Record serial_control : Type := {
  device : Z;
  flags : Z;
  timeout : Z;
  baudrate : Z;
  count : nat;
  data : bytes
}.

(** The [while offset < len(data)] loop of [send_serial_bytes]; the result
    is the messages handed to [serial_control_send], in order. *)
Equations? send_serial_loop (dev flg baud : Z) (payload : bytes)
  (offset : nat) : list serial_control
  by wf (length payload - offset)%nat lt :=
  send_serial_loop dev flg baud payload offset
    with inspect (offset <? length payload)%nat => {
    | exist _ false _ => [];
    | exist _ true Hlt =>
        {| device := dev; flags := flg; timeout := 0; baudrate := baud;
           count := length (slice payload offset (offset + 70));
           data :=
             if (length (slice payload offset (offset + 70)) <? 70)%nat
             then slice payload offset (offset + 70)
                  ++ repeat 0
                       (70 - length (slice payload offset (offset + 70)))
             else slice payload offset (offset + 70) |}
        :: send_serial_loop dev flg baud payload
             (offset + length (slice payload offset (offset + 70))) }.
Proof.
  apply Nat.ltb_lt in Hlt. unfold slice.
  rewrite length_firstn, length_skipn. lia.
Qed.

Definition send_serial_bytes (dev : Z) (payload : bytes) (baud : Z)
  (exclusive : bool) : list serial_control :=
  send_serial_loop dev (if exclusive then FLAG_EXCLUSIVE else 0) baud
    payload 0.

(** [TcpBridge]: at most one connected client. *)
Record TcpBridge : Type := { client : option sock }.

Definition close_client (b : TcpBridge) (n : net) : TcpBridge * net :=
  match client b with
  | Some c => ({| client := None |}, close n c)
  | None => ({| client := None |}, n)
  end.

(** [TcpBridge.send] of [rtk_bridge.py]. *)
Definition bridge_send (b : TcpBridge) (n : net) (payload : bytes)
  : bool * (TcpBridge * net) :=
  match client b with
  | Some c =>
      match sendall n c payload with
      | Some n' => (true, (b, n'))
      | None => (false, close_client b n)
      end
  | None => (false, (b, n))
  end.

(** [gps2_to_tcp_loop] of [rtk_bridge.py], lines 159-173: what the loop
    does with the result of one [recv_match] ([None]: no message). *)
Definition gps2_to_tcp_recv (dev : Z) (msg : option serial_control)
  (b : TcpBridge) (n : net) : TcpBridge * net :=
  match msg with
  | Some m =>
      if (0 <? count m)%nat && (device m =? dev) then
        let payload := firstn (count m) (data m) in
        if negb (is_all_zero payload) then snd (bridge_send b n payload)
        else (b, n)
      else (b, n)
  | None => (b, n)
  end.

(** [mavlink_loop] of [uPrecise_forward.py], lines 182-205: the same
    step in the older forwarder.  [is_all_zero] only selects what is
    printed there; the write to the client is not guarded by it. *)
Definition mavlink_loop_recv (dev : Z) (msg : option serial_control)
  (b : TcpBridge) (n : net) : TcpBridge * net :=
  match msg with
  | Some m =>
      if (0 <? count m)%nat && (device m =? dev) then
        let payload := firstn (count m) (data m) in
        match client b with
        | Some c =>
            match sendall n c payload with
            | Some n' => (b, n')
            | None => close_client b n
            end
        | None => (b, n)
        end
      else (b, n)
  | None => (b, n)
  end.

End Tunnel.

(* ===================================================================== *)
(** ** NTRIP handshake ([ntrip_proxy.py]) *)
(* ===================================================================== *)

Module Handshake.

(** *** Reading the response: [connect_ntrip], lines 119-166 *)

(** What the caster's side of the socket delivers: a stretch of bytes, or
    a silence long enough for [recv] to raise [socket.timeout].  When
    nothing is left the caster has closed the connection.  An empty
    stretch reads as end of stream, as [recv] returning [b""] does. *)
Inductive recv_event : Type :=
| Silence
| Segment (payload : bytes).

(** [sock.recv(bufsize)]: [None] for [socket.timeout]; at most [bufsize]
    bytes are taken, the remainder of the stretch stays pending. *)
Definition recv (bufsize : nat) (pending : list recv_event)
  : option bytes * list recv_event :=
  match pending with
  | [] => (Some [], [])
  | Silence :: rest => (None, rest)
  | Segment s :: rest =>
      if (length s <=? bufsize)%nat then (Some s, rest)
      else (Some (firstn bufsize s), Segment (skipn bufsize s) :: rest)
  end.

Definition max_header : nat := 64 * 1024.
#[global] Opaque max_header.

(** ["ICY 200" in text or " 200 " in text]. *)
Definition has_200 (text : bytes) : bool :=
  contains (of_string "ICY 200") text || contains (of_string " 200 ") text.

Inductive read_step : Type :=
| Continue (header : bytes) (pending : list recv_event)
| Break (header : bytes) (pending : list recv_event)
| TimedOut.

(** The body of [while len(header) < max_header]. *)
Definition read_header_step (header : bytes) (pending : list recv_event)
  : read_step :=
  match recv 1024 pending with
  | (None, pending') =>
      if has_200 header then Break header pending' else TimedOut
  | (Some [], pending') => Break header pending'
  | (Some chunk, pending') =>
      let header' := header ++ chunk in
      if contains CRLFCRLF header' then Break header' pending'
      else if has_200 header' && (128 <? length header')%nat
           then Break header' pending'
           else Continue header' pending'
  end.

(** The read loop.  [Some (header, pending)]: the loop ended with this
    header; [None]: it raised the time-out [ConnectionError]. *)
Equations? read_header (header : bytes) (pending : list recv_event)
  : option (bytes * list recv_event)
  by wf (max_header - length header)%nat lt :=
  read_header header pending
    with inspect (length header <? max_header)%nat => {
    | exist _ false _ => Some (header, pending);
    | exist _ true Hlt with inspect (read_header_step header pending) => {
      | exist _ (Continue header' pending') Hstep =>
          read_header header' pending';
      | exist _ (Break header' pending') _ => Some (header', pending');
      | exist _ TimedOut _ => None } }.
Proof.
  apply Nat.ltb_lt in Hlt.
  unfold read_header_step in Hstep.
  destruct (recv 1024 pending) as [[chunk|] pending''].
  - destruct chunk as [|c chunk]; [discriminate|].
    destruct (contains CRLFCRLF _); [discriminate|].
    destruct (has_200 _ && _); [discriminate|].
    injection Hstep as <- _. rewrite length_app. simpl. lia.
  - destruct (has_200 header); discriminate.
Qed.

(** [connect_ntrip] after the request is sent: starts from [header = b""]
    and returns the header read. *)
Definition connect_ntrip (pending : list recv_event)
  : option (bytes * list recv_event) :=
  read_header [] pending.

(** *** Classifying and splitting: [check_response_header], lines 169-222 *)

Inductive exn : Type :=
| AuthenticationFailed          (* "Authentication failed (401/403). ..." *)
| MountpointNotFound            (* "Mountpoint not found (404). ..." *)
| ServerInternalError           (* "Server internal error (500)." *)
| UnexpectedResponse (status_line : bytes)
                                (* "Unexpected response from server: ..." *)
| IndexError.                   (* [header[i]] out of range *)

Inductive result (A : Type) : Type :=
| Return (a : A)
| Raise (e : exn).
Arguments Return {A} a.
Arguments Raise {A} e.

(** [header[i] < 32 and header[i] not in (9, 10, 13)]. *)
Definition is_control (b : byte) : bool :=
  (b <? 32) && negb ((b =? 9) || (b =? 10) || (b =? 13)).

(** [for i in range(i, i + n): if is_control(header[i]): header_end = i;
    break]; [Return None] when the loop runs out. *)
Fixpoint scan_control (header : bytes) (i n : nat) : result (option nat) :=
  match n with
  | O => Return None
  | S n' =>
      match nth_error header i with
      | None => Raise IndexError
      | Some b => if is_control b then Return (Some i)
                  else scan_control header (S i) n'
      end
  end.

(** Lines 171-190: [header_end]. *)
Definition locate_split (header : bytes) : result nat :=
  match find CRLFCRLF header with
  | Some p => Return (p + 4)%nat
  | None =>
      let status_end :=
        match find CRLF header with
        | Some s => Some s
        | None => find [LF] header
        end in
      match status_end with
      | Some s =>
          match find_from [0xD3] header (s + 2) with
          | Some data_start => Return data_start
          | None =>
              match scan_control header (s + 2)
                      (Nat.min (length header) (s + 200) - (s + 2)) with
              | Return (Some i) => Return i
              | Return None => Return (length header)
              | Raise e => Raise e
              end
          end
      | None => Return (length header)
      end
  end.

(** Lines 196-198: the status line of the decoded header text. *)
Definition status_line_of (header_text : bytes) : bytes :=
  let status_line := split_head CRLF header_text in
  if contains [LF] status_line && negb (contains CRLF status_line)
  then split_head [LF] status_line
  else status_line.

(** [status_line.startswith("ICY 200") or " 200 " in status_line]. *)
Definition is_success (status_line : bytes) : bool :=
  startswith (of_string "ICY 200") status_line
  || contains (of_string " 200 ") status_line.

(** Lines 211-222. *)
Definition classify (status_line : bytes) (ok : bytes * bytes)
  : result (bytes * bytes) :=
  if is_success status_line then Return ok
  else if contains (of_string "401") status_line
          || contains (of_string "403") status_line
       then Raise AuthenticationFailed
  else if contains (of_string "404") status_line
       then Raise MountpointNotFound
  else if contains (of_string "500") status_line
       then Raise ServerInternalError
  else Raise (UnexpectedResponse status_line).

Definition check_response_header (header : bytes)
  : result (bytes * bytes) :=
  match locate_split header with
  | Raise e => Raise e
  | Return header_end =>
      let header_text_part := firstn header_end header in
      let binary_data_part :=
        if (header_end <? length header)%nat then skipn header_end header
        else [] in
      classify (status_line_of header_text_part)
               (header_text_part, binary_data_part)
  end.

End Handshake.

(** ** The handshake of [ntrip_to_rover.py] *)

Module NtripToRover.
Import Handshake.

(** [ntrip_to_rover.connect_ntrip], lines 158-190, after its read loop
    (the same code is in [RTKRoverComplete.connect_ntrip], lines 221-252):
    the status line is the buffer up to its first CRLF; on success the
    payload bundled with the header is returned, cut at the blank line or
    else at the first sync byte after the status line; there is no scan
    for control bytes and no case for 500.  The message of the last error
    is "Unexpected response: " followed by the status line. *)
Definition check_response (header : bytes) : result bytes :=
  let status_line := split_head CRLF header in
  if contains (of_string "ICY 200") status_line
     || contains (of_string " 200 ") status_line
  then
    let header_end :=
      match find CRLFCRLF header with
      | Some p => (p + 4)%nat
      | None =>
          match match find CRLF header with
                | Some s => Some s
                | None => find [LF] header
                end with
          | Some s =>
              match find_from [0xD3] header (s + 2) with
              | Some data_start => data_start
              | None => length header
              end
          | None => length header
          end
      end in
    Return (if (header_end <? length header)%nat
            then skipn header_end header else [])
  else if contains (of_string "401") status_line
          || contains (of_string "403") status_line
       then Raise AuthenticationFailed
  else if contains (of_string "404") status_line
       then Raise MountpointNotFound
  else Raise (UnexpectedResponse status_line).

End NtripToRover.

(* ===================================================================== *)
(** ** Byte streams made of frames and noise *)
(* ===================================================================== *)

Module Stream.
Import Rtcm.

(** A well-formed frame: sync byte, two header bytes, then as many payload
    bytes as the header declares and a three-byte trailer. *)
Definition is_frame (f : bytes) : bool :=
  match f with
  | s :: h0 :: h1 :: body =>
      (s =? SYNC)
      && (length body =? Z.to_nat (declared_length h0 h1) + 3)%nat
  | _ => false
  end.

Inductive segment : Type :=
| Noise (n : bytes)
| Frame (f : bytes).

(** Noise holds no sync byte; frames are well formed. *)
Definition clean (seg : segment) : Prop :=
  match seg with
  | Noise n => ~ In SYNC n
  | Frame f => is_frame f = true
  end.

Definition segment_bytes (seg : segment) : bytes :=
  match seg with Noise n => n | Frame f => f end.

Definition stream_bytes (segs : list segment) : bytes :=
  concat (map segment_bytes segs).

Fixpoint frames_of (segs : list segment) : list bytes :=
  match segs with
  | [] => []
  | Noise _ :: rest => frames_of rest
  | Frame f :: rest => f :: frames_of rest
  end.

(** The message type a frame carries, as [parse_rtcm3_message_type]
    reads it. *)
Definition frame_type (f : bytes) : Z :=
  parse_rtcm3_message_type (frame_payload f).

End Stream.

(* ===================================================================== *)
(** * Properties *)
(* ===================================================================== *)

(** ** Lists and byte strings *)

Section ListFacts.
Context {A : Type}.

Lemma skipn_app_exact (n x : list A) (k : nat) :
  skipn (length n + k) (n ++ x) = skipn k x.
Proof.
  rewrite skipn_app, skipn_all2 by lia.
  replace (length n + k - length n)%nat with k by lia. reflexivity.
Qed.

Lemma firstn_app_short (s b : list A) (k : nat) :
  (k <= length s)%nat -> firstn k (s ++ b) = firstn k s.
Proof.
  intros H. rewrite firstn_app.
  replace (k - length s)%nat with 0%nat by lia.
  simpl. apply app_nil_r.
Qed.

Lemma skipn_app_short (s b : list A) (k : nat) :
  (k <= length s)%nat -> skipn k (s ++ b) = skipn k s ++ b.
Proof.
  intros H. rewrite skipn_app.
  replace (k - length s)%nat with 0%nat by lia. reflexivity.
Qed.

End ListFacts.

Section IndexFacts.
Variable x : byte.

(** [index] finds the first occurrence: the buffer splits there. *)
Lemma index_spec (buf : bytes) :
  match index x buf with
  | None => ~ In x buf
  | Some i => exists pre post,
      buf = pre ++ x :: post /\ length pre = i /\ ~ In x pre
  end.
Proof.
  induction buf as [|b buf IH]; simpl.
  - tauto.
  - destruct (Z.eqb_spec b x) as [->|Hne].
    + exists [], buf. simpl. tauto.
    + destruct (index x buf) as [i|]; simpl.
      * destruct IH as (pre & post & -> & <- & Hpre).
        exists (b :: pre), post. simpl. intuition congruence.
      * intuition congruence.
Qed.

Lemma index_app_absent (n buf : bytes) :
  ~ In x n ->
  index x (n ++ buf) = option_map (Nat.add (length n)) (index x buf).
Proof.
  induction n as [|b n IH]; simpl; intros Hn.
  - destruct (index x buf); reflexivity.
  - destruct (Z.eqb_spec b x) as [->|_]; [tauto|].
    rewrite IH by tauto. destruct (index x buf); reflexivity.
Qed.

Lemma index_app_present (buf later : bytes) (i : nat) :
  index x buf = Some i -> index x (buf ++ later) = Some i.
Proof.
  revert i. induction buf as [|b buf IH]; simpl; intros i; [discriminate|].
  destruct (b =? x); [trivial|].
  destruct (index x buf) as [j|]; simpl; [|discriminate].
  intros [= <-]. now rewrite (IH j).
Qed.

End IndexFacts.

(** ** The frame decoder *)

Module RtcmFacts.
Import Rtcm Stream.

(** The loop body seen from the sync byte on: [s] is the buffer with the
    bytes before the marker dropped. *)
Definition step_at_sync (s : bytes) : (bytes * bytes) + bytes :=
  if (length s <? 3)%nat then inr s
  else
    let flen := frame_len (nth 1 s 0) (nth 2 s 0) in
    if (length s <? flen)%nat then inr s
    else inl (firstn flen s, skipn flen s).

(** The buffer from its first sync byte on; empty when it has none. *)
Definition sync_tail (buf : bytes) : bytes :=
  match index SYNC buf with
  | Some i => skipn i buf
  | None => []
  end.

Lemma parse_loop_unfold p buf :
  parse_loop p buf =
  match parse_step p buf with
  | inr buf' => ([], buf')
  | inl (frame, rest) =>
      let r := parse_loop p rest in (frame :: fst r, snd r)
  end.
Proof.
  funelim (parse_loop p buf).
  - rewrite Hstep. reflexivity.
  - match goal with E : parse_step _ _ = inr _ |- _ => rewrite E end.
    reflexivity.
Qed.

Lemma step_at_sync_wait s s' : step_at_sync s = inr s' -> s' = s.
Proof.
  unfold step_at_sync.
  destruct (length s <? 3)%nat; [congruence|].
  destruct (length s <? frame_len _ _)%nat; congruence.
Qed.

Lemma step_at_sync_shrinks s f r :
  step_at_sync s = inl (f, r) -> (length r < length s)%nat.
Proof.
  unfold step_at_sync.
  destruct (length s <? 3)%nat eqn:H3; [discriminate|].
  remember (frame_len (nth 1 s 0) (nth 2 s 0)) as flen eqn:Eflen.
  destruct (length s <? flen)%nat eqn:Hfl; [discriminate|].
  intros H; injection H as _ <-. apply Nat.ltb_ge in H3, Hfl.
  rewrite length_skipn. unfold frame_len in *. lia.
Qed.

(** A frame that is complete stays the same frame when more bytes
    arrive behind it. *)
Lemma step_at_sync_app s later f r :
  step_at_sync s = inl (f, r) ->
  step_at_sync (s ++ later) = inl (f, r ++ later).
Proof.
  unfold step_at_sync.
  destruct (length s <? 3)%nat eqn:H3; [discriminate|].
  apply Nat.ltb_ge in H3.
  rewrite !app_nth1 by lia.
  remember (frame_len (nth 1 s 0) (nth 2 s 0)) as flen eqn:Eflen.
  destruct (length s <? flen)%nat eqn:Hfl; [discriminate|].
  apply Nat.ltb_ge in Hfl. intros H; injection H as <- <-.
  rewrite length_app.
  replace (length s + length later <? 3)%nat with false
    by (symmetry; apply Nat.ltb_ge; lia).
  replace (length s + length later <? flen)%nat with false
    by (symmetry; apply Nat.ltb_ge; lia).
  now rewrite firstn_app_short, skipn_app_short.
Qed.

(** The loop body only looks at the buffer from its first sync byte. *)
Lemma parse_step_at_sync p buf :
  parse_step p buf =
  match index SYNC buf with
  | None => inr (on_no_sync p buf)
  | Some i => step_at_sync (skipn i buf)
  end.
Proof.
  unfold parse_step, step_at_sync, slice.
  destruct (index SYNC buf) as [i|]; [|reflexivity].
  rewrite length_skipn.
  destruct (length buf - i <? 3)%nat eqn:H3; [reflexivity|].
  replace (i + 3 - (i + 1))%nat with 2%nat by lia.
  replace (i + 1)%nat with (1 + i)%nat by lia.
  rewrite <- skipn_skipn.
  assert (Hn0 : forall l : bytes,
             nth 0 (firstn 2 (skipn 1 l)) 0 = nth 1 l 0)
    by (intros [|? [|? ?]]; reflexivity).
  assert (Hn1 : forall l : bytes,
             nth 1 (firstn 2 (skipn 1 l)) 0 = nth 2 l 0)
    by (intros [|? [|? [|? ?]]]; reflexivity).
  rewrite Hn0, Hn1.
  set (flen := frame_len _ _).
  destruct (length buf - i <? flen)%nat; [reflexivity|].
  replace (i + flen - i)%nat with flen by lia.
  replace (i + flen)%nat with (flen + i)%nat by lia.
  now rewrite skipn_skipn.
Qed.


Lemma index_sync_split buf i :
  index SYNC buf = Some i ->
  exists pre post,
    buf = pre ++ SYNC :: post /\ length pre = i /\ ~ In SYNC pre
    /\ skipn i buf = SYNC :: post.
Proof.
  intros H. pose proof (index_spec SYNC buf) as S. rewrite H in S.
  destruct S as (pre & post & -> & <- & Hpre).
  exists pre, post. repeat split; trivial.
  rewrite <- (Nat.add_0_r (length pre)). apply skipn_app_exact.
Qed.

Lemma index_sync_head t : index SYNC (SYNC :: t) = Some 0%nat.
Proof. reflexivity. Qed.

Lemma sync_tail_head buf :
  sync_tail buf = [] \/ exists t, sync_tail buf = SYNC :: t.
Proof.
  unfold sync_tail. destruct (index SYNC buf) as [i|] eqn:H; [|now left].
  destruct (index_sync_split _ H) as (_ & post & _ & _ & _ & ->).
  right. now exists post.
Qed.

Lemma sync_tail_at_sync t : sync_tail (SYNC :: t) = SYNC :: t.
Proof. reflexivity. Qed.

Lemma sync_tail_absent n : ~ In SYNC n -> sync_tail n = [].
Proof.
  intros H. unfold sync_tail.
  pose proof (index_spec SYNC n) as S.
  destruct (index SYNC n) as [i|]; [|reflexivity].
  destruct S as (pre & post & -> & _ & _).
  exfalso. apply H, in_elt.
Qed.

Lemma sync_tail_idem buf : sync_tail (sync_tail buf) = sync_tail buf.
Proof.
  destruct (sync_tail_head buf) as [->|[t ->]]; reflexivity.
Qed.

Lemma sync_tail_app buf later :
  sync_tail (buf ++ later) = sync_tail (sync_tail buf ++ later).
Proof.
  unfold sync_tail at 1 3.
  destruct (index SYNC buf) as [i|] eqn:H.
  - rewrite (index_app_present _ _ later H).
    destruct (index_sync_split _ H) as (pre & post & E & L & _ & E').
    rewrite skipn_app_short
      by (rewrite E, length_app; simpl; lia).
    rewrite !E'. reflexivity.
  - pose proof (index_spec SYNC buf) as S. rewrite H in S.
    rewrite index_app_absent by assumption. simpl.
    unfold sync_tail.
    destruct (index SYNC later) as [j|]; simpl; [|reflexivity].
    apply skipn_app_exact.
Qed.

(** The canonical decoder: the one that clears a buffer without sync. *)
Abbreviation canon := (parse_loop ClearAlways).

Definition canon_step (s : bytes) : (bytes * bytes) + bytes :=
  match s with
  | [] => inr []
  | _ :: _ => step_at_sync s
  end.

Lemma parse_step_canon buf :
  parse_step ClearAlways buf = canon_step (sync_tail buf).
Proof.
  rewrite parse_step_at_sync. unfold sync_tail.
  destruct (index SYNC buf) as [i|] eqn:H; [|reflexivity].
  destruct (index_sync_split _ H) as (_ & post & _ & _ & _ & ->).
  reflexivity.
Qed.

Lemma canon_sync_tail buf : canon buf = canon (sync_tail buf).
Proof.
  rewrite (parse_loop_unfold _ buf), (parse_loop_unfold _ (sync_tail buf)).
  now rewrite !parse_step_canon, sync_tail_idem.
Qed.

(** Bytes before the first sync byte never matter to what follows. *)
Lemma canon_app_sync_tail buf later :
  canon (buf ++ later) = canon (sync_tail buf ++ later).
Proof.
  rewrite (canon_sync_tail (buf ++ later)).
  rewrite (canon_sync_tail (sync_tail buf ++ later)).
  now rewrite sync_tail_app.
Qed.

Lemma canon_nil : canon [] = ([], []).
Proof. now rewrite parse_loop_unfold. Qed.

Lemma canon_at_sync t :
  canon (SYNC :: t) =
  match step_at_sync (SYNC :: t) with
  | inr buf' => ([], buf')
  | inl (frame, rest) => (frame :: fst (canon rest), snd (canon rest))
  end.
Proof.
  rewrite parse_loop_unfold, parse_step_canon, sync_tail_at_sync.
  reflexivity.
Qed.

(** Decoding [a ++ b] at once is decoding [a], then decoding what was
    retained followed by [b]. *)
Lemma canon_app a : forall b,
  canon (a ++ b) =
  (fst (canon a) ++ fst (canon (snd (canon a) ++ b)),
   snd (canon (snd (canon a) ++ b))).
Proof.
  induction a as [a IH] using (induction_ltof1 _ (@length byte)).
  unfold ltof in IH. intros b.
  rewrite canon_app_sync_tail, (canon_sync_tail a).
  assert (Hlen : (length (sync_tail a) <= length a)%nat).
  { unfold sync_tail. destruct (index SYNC a); simpl; [|lia].
    rewrite length_skipn. lia. }
  destruct (sync_tail_head a) as [->|[t E]].
  - rewrite canon_nil. simpl. now destruct (canon b).
  - rewrite E in *. simpl app at 1.
    rewrite (canon_at_sync (t ++ b)), (canon_at_sync t).
    change (SYNC :: t ++ b) with ((SYNC :: t) ++ b).
    destruct (step_at_sync (SYNC :: t)) as [[f r]|s'] eqn:Hs.
    + rewrite (step_at_sync_app _ b Hs).
      apply step_at_sync_shrinks in Hs.
      rewrite (IH r) by lia. reflexivity.
    + apply step_at_sync_wait in Hs. subst s'.
      change ((SYNC :: t) ++ b) with (SYNC :: (t ++ b)).
      rewrite <- canon_at_sync. simpl. apply surjective_pairing.
Qed.

Lemma sync_tail_on_no_sync p buf :
  index SYNC buf = None -> sync_tail (on_no_sync p buf) = [].
Proof.
  intros H. apply sync_tail_absent.
  pose proof (index_spec SYNC buf) as S. rewrite H in S.
  destruct p as [|cap]; simpl; [tauto|].
  destruct (cap <? length buf)%nat; simpl; tauto.
Qed.

(** Whatever the garbage policy, the frames cut out are those of the
    canonical decoder, and the retained buffers agree from the sync byte
    on. *)
Lemma parse_loop_canon p buf :
  fst (parse_loop p buf) = fst (canon buf)
  /\ sync_tail (snd (parse_loop p buf)) = snd (canon buf).
Proof.
  induction buf as [buf IH] using (induction_ltof1 _ (@length byte)).
  unfold ltof in IH.
  rewrite (parse_loop_unfold p buf), (parse_loop_unfold ClearAlways buf).
  rewrite !parse_step_at_sync.
  destruct (index SYNC buf) as [i|] eqn:H.
  - destruct (index_sync_split _ H) as (_ & post & _ & _ & _ & E).
    destruct (step_at_sync (skipn i buf)) as [[f r]|s'] eqn:Hs.
    + pose proof (step_at_sync_shrinks _ Hs) as Hr.
      rewrite length_skipn in Hr.
      destruct (IH r) as [IH1 IH2]; [lia|].
      simpl. now rewrite IH1, IH2.
    + apply step_at_sync_wait in Hs. subst s'. simpl.
      rewrite E. auto.
  - simpl. split; [reflexivity|]. now apply sync_tail_on_no_sync.
Qed.

Lemma parse_loop_nil p : parse_loop p [] = ([], []).
Proof.
  rewrite parse_loop_unfold. destruct p as [|cap]; reflexivity.
Qed.

(** Feeding chunk after chunk, from the state a parse of [seen] left,
    yields the frames of the whole sequence. *)
Lemma feed_all_canon p chunks : forall seen,
  fst (canon seen) ++ fst (feed_all p (snd (parse_loop p seen)) chunks)
  = fst (canon (seen ++ concat chunks)).
Proof.
  induction chunks as [|c chunks IH]; intros seen; simpl.
  - now rewrite !app_nil_r.
  - unfold feed.
    set (buf := snd (parse_loop p seen)).
    destruct (parse_loop_canon p (buf ++ c)) as [-> _].
    rewrite (IH (buf ++ c)), <- app_assoc.
    rewrite (canon_app seen (c ++ concat chunks)). simpl.
    f_equal.
    destruct (parse_loop_canon p seen) as [_ <-]. fold buf.
    now rewrite <- canon_app_sync_tail.
Qed.

Lemma feed_all_from_empty p chunks :
  fst (feed_all p [] chunks) = fst (canon (concat chunks)).
Proof.
  pose proof (feed_all_canon p chunks []) as H.
  rewrite (parse_loop_nil p), canon_nil in H. exact H.
Qed.

Lemma step_at_sync_frame f :
  is_frame f = true -> step_at_sync f = inl (f, []).
Proof.
  destruct f as [|s [|h0 [|h1 body]]]; try discriminate.
  unfold is_frame. intros H. apply andb_prop in H as [Hs Hb].
  apply Nat.eqb_eq in Hb.
  unfold step_at_sync.
  change (length (s :: h0 :: h1 :: body)) with (3 + length body)%nat.
  change (nth 1 (s :: h0 :: h1 :: body) 0) with h0.
  change (nth 2 (s :: h0 :: h1 :: body) 0) with h1.
  remember (frame_len h0 h1) as flen eqn:Eflen.
  assert (flen = 3 + length body)%nat as ->
    by (subst flen; unfold frame_len; lia).
  replace (3 + length body <? 3)%nat with false
    by (symmetry; apply Nat.ltb_ge; lia).
  rewrite Nat.ltb_irrefl.
  change (3 + length body)%nat with (length (s :: h0 :: h1 :: body)).
  now rewrite firstn_all, skipn_all.
Qed.

Lemma is_frame_head f :
  is_frame f = true -> exists t, f = SYNC :: t.
Proof.
  destruct f as [|s [|h0 [|h1 body]]]; try discriminate.
  unfold is_frame. intros H. apply andb_prop in H as [Hs _].
  apply Z.eqb_eq in Hs. subst s. eauto.
Qed.

(** A clean stream decodes, in one go, to exactly its frames. *)
Lemma canon_clean segs :
  Forall clean segs -> fst (canon (stream_bytes segs)) = frames_of segs.
Proof.
  induction 1 as [|seg segs Hseg _ IH]; unfold stream_bytes; simpl.
  - now rewrite canon_nil.
  - fold (stream_bytes segs). destruct seg as [n|f]; simpl in *.
    + rewrite canon_app_sync_tail, sync_tail_absent by assumption.
      exact IH.
    + destruct (is_frame_head _ Hseg) as [t E].
      pose proof (step_at_sync_frame _ Hseg) as Hs.
      apply (step_at_sync_app _ (stream_bytes segs)) in Hs.
      rewrite E in *.
      change ((SYNC :: t) ++ stream_bytes segs)
        with (SYNC :: t ++ stream_bytes segs) in *.
      rewrite canon_at_sync, Hs. simpl. now rewrite IH.
Qed.

(** Successive calls of the two decoders are [feed_all]. *)
Lemma read_chunks_feed_all chunks : forall st,
  let r := feed_all ClearAlways (buffer st) chunks in
  buffer (fold_left read_rtcm_stream_chunk chunks st) = snd r
  /\ msg_counts (fold_left read_rtcm_stream_chunk chunks st)
     = fold_left count_frame (fst r) (msg_counts st).
Proof.
  induction chunks as [|c chunks IH]; intros st; cbn [fold_left feed_all].
  - split; reflexivity.
  - destruct (IH (read_rtcm_stream_chunk st c)) as [IHb IHc].
    cbv zeta. cbn [fst snd]. split.
    + exact IHb.
    + rewrite IHc, fold_left_app. reflexivity.
Qed.

Lemma validate_frame_with_buffer t st f buf :
  validate_frame t (with_buffer st buf) f
  = with_buffer (validate_frame t st f) buf.
Proof.
  unfold validate_frame.
  destruct (6 <=? length f)%nat; [|reflexivity].
  destruct (2 <=? length (frame_payload f))%nat; [|reflexivity].
  destruct (0 <? msg_type_bits (frame_payload f)); reflexivity.
Qed.

Lemma fold_validate_with_buffer t frames : forall st buf,
  fold_left (validate_frame t) frames (with_buffer st buf)
  = with_buffer (fold_left (validate_frame t) frames st) buf.
Proof.
  induction frames as [|f frames IH]; intros st buf; simpl.
  - reflexivity.
  - now rewrite validate_frame_with_buffer, IH.
Qed.

Lemma validate_rtcm_data_unfold t st data :
  let r := feed (ClearAbove 1024) (rtcm_buffer st) data in
  validate_rtcm_data t st data
  = with_buffer (fold_left (validate_frame t) (fst r) st) (snd r).
Proof. apply fold_validate_with_buffer. Qed.

Lemma validate_chunks_feed_all t chunks : forall st,
  let r := feed_all (ClearAbove 1024) (rtcm_buffer st) chunks in
  fold_left (validate_rtcm_data t) chunks st
  = with_buffer (fold_left (validate_frame t) (fst r) st) (snd r).
Proof.
  induction chunks as [|c chunks IH]; intros st; cbn [fold_left feed_all].
  - cbv zeta. cbn [fst snd fold_left]. now destruct st.
  - rewrite IH. cbv zeta. cbn [fst snd].
    rewrite (validate_rtcm_data_unfold t st c). cbv zeta.
    cbn [rtcm_buffer with_buffer].
    rewrite fold_left_app, fold_validate_with_buffer.
    reflexivity.
Qed.

(** The reader's state before the first chunk, with no initial data. *)
Definition stream_init : stream_state :=
  {| buffer := []; total_bytes := 0; msg_counts := fun _ => 0%nat |}.

(** C1. Chunk-size independence of the frame decoder.  A byte sequence
    made of N well-formed frames and of noise without the sync byte 0xD3
    is cut into chunks in any way and fed chunk by chunk to a decoder that
    starts empty.  Whatever it does with a buffer without sync byte
    ([read_rtcm_stream] clears it, [validate_rtcm_data] clears it above
    1024 bytes), the decoder cuts out exactly the N frames of the
    sequence, in order, hence the same message types in the same order;
    the counters of both decoders end as if the N frames had been
    accounted for one after the other. *)
Theorem chunk_size_independence
  (segs : list segment) (chunks : list bytes) :
  Forall clean segs ->
  concat chunks = stream_bytes segs ->
  (forall p : garbage_policy,
     let yielded := fst (feed_all p [] chunks) in
     yielded = frames_of segs
     /\ length yielded = length (frames_of segs)
     /\ map frame_type yielded = map frame_type (frames_of segs))
  /\ msg_counts (fold_left read_rtcm_stream_chunk chunks stream_init)
     = fold_left count_frame (frames_of segs) (fun _ => 0%nat)
  /\ (forall t,
        rtcm_valid_frames (fold_left (validate_rtcm_data t) chunks rover_init)
        = rtcm_valid_frames
            (fold_left (validate_frame t) (frames_of segs) rover_init)
        /\ rtcm_msg_types
             (fold_left (validate_rtcm_data t) chunks rover_init)
           = rtcm_msg_types
               (fold_left (validate_frame t) (frames_of segs) rover_init)).
Proof.
  intros Hclean Hcat.
  assert (E : forall p, fst (feed_all p [] chunks) = frames_of segs).
  { intros p. rewrite feed_all_from_empty, Hcat. now apply canon_clean. }
  split; [|split].
  - intros p yielded. subst yielded. rewrite E. auto.
  - destruct (read_chunks_feed_all chunks stream_init) as [_ ->].
    cbn [buffer stream_init msg_counts]. now rewrite E.
  - intros t. rewrite validate_chunks_feed_all.
    cbn [rtcm_buffer rover_init]. rewrite E. split; reflexivity.
Qed.

(** Two frames (type 1005 with a four-byte payload, and an empty one)
    between noise, cut into four chunks that split both frames. *)
Definition sample_stream : list segment :=
  [Noise [1; 2]; Frame [0xD3; 0; 4; 0x3E; 0xD0; 1; 2; 9; 9; 9];
   Noise [7]; Frame [0xD3; 0; 0; 8; 8; 8]; Noise [5]].

Definition sample_chunks : list bytes :=
  [[1; 2; 0xD3]; [0; 4; 0x3E; 0xD0; 1]; [2; 9; 9; 9; 7; 0xD3; 0; 0; 8];
   [8; 8; 5]].

Lemma chunk_size_independence_witness :
  fst (feed_all (ClearAbove 1024) [] sample_chunks)
  = frames_of sample_stream
  /\ map frame_type (fst (feed_all ClearAlways [] sample_chunks))
     = [1005; -1].
Proof.
  assert (Hclean : Forall clean sample_stream).
  { repeat constructor; simpl; intuition discriminate. }
  destruct (@chunk_size_independence sample_stream sample_chunks
              Hclean eq_refl) as (H & _ & _).
  split.
  - exact (proj1 (H (ClearAbove 1024))).
  - exact (proj2 (proj2 (H ClearAlways))).
Defined.

(** *** The retained buffer *)

Lemma log2_below a n : 0 <= a < 2 ^ n -> 0 < n -> Z.log2 a < n.
Proof.
  intros [H0 Hn] Hpos.
  destruct (Z.eq_dec a 0) as [->|Hne]; [simpl; lia|].
  apply Z.log2_lt_pow2; lia.
Qed.

Lemma lor_below a b n :
  0 < n -> 0 <= a < 2 ^ n -> 0 <= b < 2 ^ n -> 0 <= Z.lor a b < 2 ^ n.
Proof.
  intros Hn Ha Hb.
  assert (H0 : 0 <= Z.lor a b) by (apply Z.lor_nonneg; lia).
  split; [exact H0|].
  destruct (Z.eq_dec (Z.lor a b) 0) as [->|Hne].
  - apply Z.pow_pos_nonneg; lia.
  - apply Z.log2_lt_pow2; [lia|].
    rewrite Z.log2_lor by lia.
    pose proof (log2_below Ha Hn). pose proof (log2_below Hb Hn). lia.
Qed.

(** The length field is ten bits wide. *)
Lemma declared_length_range h0 h1 :
  is_byte h1 -> 0 <= declared_length h0 h1 < 1024.
Proof.
  unfold is_byte, declared_length. intros Hb.
  change 0x03 with (Z.ones 2). rewrite Z.land_ones by lia.
  rewrite Z.shiftl_mul_pow2 by lia.
  pose proof (Z.mod_pos_bound h0 (2 ^ 2) eq_refl) as Hm.
  change 1024 with (2 ^ 10).
  apply lor_below; [lia| |]; change (2 ^ 10) with 1024;
    change (2 ^ 8) with 256; change (2 ^ 2) with 4 in *; lia.
Qed.

Lemma frame_len_max h0 h1 : is_byte h1 -> (frame_len h0 h1 <= 1029)%nat.
Proof.
  intros H. pose proof (declared_length_range h0 H).
  unfold frame_len. lia.
Qed.

(** What a decoder call may leave behind: garbage without sync byte, at
    most 1024 bytes of it; or a buffer that starts at the sync byte and is
    shorter than the frame its header declares, itself at most 1029
    bytes. *)
Definition retained_bound (buf : bytes) : Prop :=
  (~ In SYNC buf /\ (length buf <= 1024)%nat)
  \/ (exists t, buf = SYNC :: t
        /\ (length buf < 1029)%nat
        /\ ((3 <= length buf)%nat ->
            let flen := frame_len (nth 1 buf 0) (nth 2 buf 0) in
            (length buf < flen)%nat /\ (flen <= 1029)%nat)).

Definition capped (p : garbage_policy) : Prop :=
  p = ClearAlways \/ exists cap, p = ClearAbove cap /\ (cap <= 1024)%nat.

Lemma on_no_sync_bound p buf :
  capped p -> ~ In SYNC buf -> retained_bound (on_no_sync p buf).
Proof.
  intros [->|(cap & -> & Hcap)] Hno; left; simpl.
  - split; [tauto | lia].
  - destruct (cap <? length buf)%nat eqn:E; simpl.
    + split; [tauto | lia].
    + apply Nat.ltb_ge in E. split; [assumption | lia].
Qed.

Lemma step_at_sync_bound t :
  Forall is_byte (SYNC :: t) ->
  step_at_sync (SYNC :: t) = inr (SYNC :: t) ->
  retained_bound (SYNC :: t).
Proof.
  intros Hb Hs. right. exists t. split; [reflexivity|].
  unfold step_at_sync in Hs.
  destruct (length (SYNC :: t) <? 3)%nat eqn:H3.
  - apply Nat.ltb_lt in H3. split; lia.
  - apply Nat.ltb_ge in H3.
    remember (frame_len (nth 1 (SYNC :: t) 0) (nth 2 (SYNC :: t) 0))
      as flen eqn:Eflen.
    destruct (length (SYNC :: t) <? flen)%nat eqn:Hfl; [|discriminate].
    apply Nat.ltb_lt in Hfl.
    assert (Hmax : (flen <= 1029)%nat).
    { subst flen. apply frame_len_max.
      rewrite Forall_forall in Hb. apply Hb, nth_In. lia. }
    split; [lia|]. intros _. split; assumption.
Qed.

(** The buffer a parse retains is within bounds, whatever it started
    from. *)
Lemma parse_loop_retained p buf :
  capped p -> Forall is_byte buf ->
  retained_bound (snd (parse_loop p buf)).
Proof.
  intros Hp.
  induction buf as [buf IH] using (induction_ltof1 _ (@length byte)).
  unfold ltof in IH. intros Hb.
  rewrite parse_loop_unfold, parse_step_at_sync.
  destruct (index SYNC buf) as [i|] eqn:H.
  - destruct (index_sync_split _ H) as (pre & post & E & _ & _ & E').
    assert (Hpost : Forall is_byte (SYNC :: post)).
    { rewrite E in Hb. now apply Forall_app in Hb as [_ Hb]. }
    rewrite E'.
    destruct (step_at_sync (SYNC :: post)) as [[f r]|s'] eqn:Hs.
    + simpl. apply IH.
      * apply step_at_sync_shrinks in Hs.
        rewrite E, length_app. lia.
      * unfold step_at_sync in Hs.
        destruct (length (SYNC :: post) <? 3)%nat; [discriminate|].
        remember (frame_len _ _) as flen eqn:Eflen in Hs.
        destruct (length (SYNC :: post) <? flen)%nat; [discriminate|].
        injection Hs as _ <-.
        rewrite <- (firstn_skipn flen (SYNC :: post)) in Hpost.
        now apply Forall_app in Hpost as [_ Hpost].
    + pose proof (step_at_sync_wait _ Hs) as ->. simpl.
      now apply step_at_sync_bound.
  - simpl. apply on_no_sync_bound; [assumption|].
    pose proof (index_spec SYNC buf) as S. now rewrite H in S.
Qed.

Lemma fold_validate_buffer t frames st :
  rtcm_buffer (fold_left (validate_frame t) frames st) = rtcm_buffer st.
Proof.
  revert st. induction frames as [|f frames IH]; intros st; simpl.
  - reflexivity.
  - rewrite IH. unfold validate_frame.
    destruct (6 <=? length f)%nat; [|reflexivity].
    destruct (2 <=? length (frame_payload f))%nat; [|reflexivity].
    destruct (0 <? msg_type_bits (frame_payload f)); reflexivity.
Qed.

(** C8. Decode-buffer memory bound.  After every call of the decoder
    ([validate_rtcm_data], and one chunk of [read_rtcm_stream]), on any
    state and any data made of bytes, the retained buffer either holds no
    sync byte and at most 1024 bytes, or begins at the sync byte (all bytes
    before it are gone) and is shorter than the frame in flight, which is
    3 + declared length + 3 and at most 1029 bytes. *)
Theorem decode_buffer_bound
  (t : timestamp) (st : rover_state) (sst : stream_state) (data : bytes) :
  Forall is_byte (rtcm_buffer st) ->
  Forall is_byte (buffer sst) ->
  Forall is_byte data ->
  retained_bound (rtcm_buffer (validate_rtcm_data t st data))
  /\ retained_bound (buffer (read_rtcm_stream_chunk sst data)).
Proof.
  intros Hst Hsst Hdata. split.
  - unfold validate_rtcm_data. rewrite fold_validate_buffer. simpl.
    apply parse_loop_retained.
    + right. exists 1024%nat. split; [reflexivity | lia].
    + apply Forall_app. now split.
  - unfold read_rtcm_stream_chunk. simpl.
    apply parse_loop_retained.
    + now left.
    + apply Forall_app. now split.
Qed.

(** *** Frames without a usable message type *)

(** The payload is shorter than two bytes, or its first twelve bits are
    zero. *)
Definition no_usable_type (frame : bytes) : Prop :=
  (length (frame_payload frame) < 2)%nat
  \/ msg_type_bits (frame_payload frame) = 0.

Lemma validate_frame_unusable t st frame :
  no_usable_type frame -> validate_frame t st frame = st.
Proof.
  unfold validate_frame. intros [H|H].
  - destruct (6 <=? length frame)%nat; [|reflexivity].
    replace (2 <=? length (frame_payload frame))%nat with false
      by (symmetry; apply Nat.leb_gt; exact H).
    reflexivity.
  - destruct (6 <=? length frame)%nat; [|reflexivity].
    destruct (2 <=? length (frame_payload frame))%nat; [|reflexivity].
    now rewrite H.
Qed.

Lemma count_frame_unusable counts frame :
  no_usable_type frame -> count_frame counts frame = counts.
Proof.
  unfold count_frame, parse_rtcm3_message_type. intros [H|H].
  - apply Nat.ltb_lt in H. now rewrite H.
  - destruct (length (frame_payload frame) <? 2)%nat; [reflexivity|].
    now rewrite H.
Qed.

(** The frame has a usable message type: a payload of two bytes or more
    whose first twelve bits are not zero. *)
Definition usable_type (frame : bytes) : bool :=
  (2 <=? length (frame_payload frame))%nat
  && negb (msg_type_bits (frame_payload frame) =? 0).

Lemma usable_type_false frame :
  usable_type frame = false -> no_usable_type frame.
Proof.
  unfold usable_type, no_usable_type. intros H.
  destruct (2 <=? length (frame_payload frame))%nat eqn:E.
  - right. cbn [andb] in H. apply negb_false_iff in H.
    now apply Z.eqb_eq.
  - left. now apply Nat.leb_gt.
Qed.

Lemma msg_type_bits_nonneg payload : 0 <= msg_type_bits payload.
Proof. unfold msg_type_bits. apply Z.land_nonneg. right. lia. Qed.

Lemma frame_payload_length frame :
  length (frame_payload frame) = (length frame - 6)%nat.
Proof.
  unfold frame_payload, slice. rewrite length_firstn, length_skipn. lia.
Qed.

(** What the accounting does for a frame with a usable type. *)
Lemma validate_frame_usable t st frame :
  usable_type frame = true ->
  validate_frame t st frame
  = {| rtcm_buffer := rtcm_buffer st;
       rtcm_valid_frames := rtcm_valid_frames st + 1;
       rtcm_msg_types :=
         set_add (msg_type_bits (frame_payload frame)) (rtcm_msg_types st);
       rtcm_last_received_time := Some t;
       rtcm_first_frame_time :=
         match rtcm_first_frame_time st with
         | None => Some t
         | Some t0 => Some t0
         end |}.
Proof.
  unfold usable_type. intros H. apply andb_prop in H as [Hlen Hty].
  unfold validate_frame. rewrite Hlen.
  apply Nat.leb_le in Hlen. rewrite frame_payload_length in Hlen.
  replace (6 <=? length frame)%nat with true
    by (symmetry; apply Nat.leb_le; lia).
  apply negb_true_iff, Z.eqb_neq in Hty.
  pose proof (msg_type_bits_nonneg (frame_payload frame)) as Hnn.
  replace (0 <? msg_type_bits (frame_payload frame)) with true
    by (symmetry; apply Z.ltb_lt; lia).
  reflexivity.
Qed.

Lemma count_frame_usable counts frame :
  usable_type frame = true ->
  count_frame counts frame
  = counter_incr counts (msg_type_bits (frame_payload frame)).
Proof.
  unfold usable_type. intros H. apply andb_prop in H as [Hlen Hty].
  unfold count_frame, parse_rtcm3_message_type.
  apply Nat.leb_le in Hlen.
  replace (length (frame_payload frame) <? 2)%nat with false
    by (symmetry; apply Nat.ltb_ge; exact Hlen).
  apply negb_true_iff, Z.eqb_neq in Hty.
  pose proof (msg_type_bits_nonneg (frame_payload frame)) as Hnn.
  replace (0 <? msg_type_bits (frame_payload frame)) with true
    by (symmetry; apply Z.ltb_lt; lia).
  reflexivity.
Qed.

(** Leaving the frames without a usable type out of the accounting
    changes nothing. *)
Lemma fold_validate_usable t frames : forall st,
  fold_left (validate_frame t) frames st
  = fold_left (validate_frame t) (filter usable_type frames) st.
Proof.
  induction frames as [|f frames IH]; intros st; [reflexivity|].
  cbn [fold_left filter]. destruct (usable_type f) eqn:E.
  - cbn [fold_left]. apply IH.
  - rewrite (@validate_frame_unusable t st f (usable_type_false _ E)).
    apply IH.
Qed.

Lemma fold_count_usable frames : forall counts,
  fold_left count_frame frames counts
  = fold_left count_frame (filter usable_type frames) counts.
Proof.
  induction frames as [|f frames IH]; intros counts; [reflexivity|].
  cbn [fold_left filter]. destruct (usable_type f) eqn:E.
  - cbn [fold_left]. apply IH.
  - rewrite (@count_frame_unusable counts f (usable_type_false _ E)).
    apply IH.
Qed.

(** The type recorded for a frame. *)
Definition record_type (types : list Z) (frame : bytes) : list Z :=
  set_add (msg_type_bits (frame_payload frame)) types.

Lemma fold_validate_counted t frames : forall st,
  rtcm_valid_frames (fold_left (validate_frame t) frames st)
  = (rtcm_valid_frames st + length (filter usable_type frames))%nat
  /\ rtcm_msg_types (fold_left (validate_frame t) frames st)
     = fold_left record_type (filter usable_type frames) (rtcm_msg_types st).
Proof.
  induction frames as [|f frames IH]; intros st.
  - cbn. split; [lia | reflexivity].
  - cbn [fold_left filter]. destruct (usable_type f) eqn:E.
    + destruct (IH (validate_frame t st f)) as [-> ->].
      rewrite (@validate_frame_usable t st f E).
      cbn [rtcm_valid_frames rtcm_msg_types length fold_left].
      split; [lia | reflexivity].
    + rewrite (@validate_frame_unusable t st f (usable_type_false _ E)).
      apply IH.
Qed.

(** The frame has a usable type, and this type is [k]. *)
Definition usable_as (k : Z) (frame : bytes) : bool :=
  usable_type frame && (msg_type_bits (frame_payload frame) =? k).

Lemma fold_count_counted k frames : forall counts,
  fold_left count_frame frames counts k
  = (counts k + length (filter (usable_as k) frames))%nat.
Proof.
  induction frames as [|f frames IH]; intros counts.
  - cbn. lia.
  - cbn [fold_left filter]. rewrite IH. unfold usable_as at 2.
    destruct (usable_type f) eqn:E; cbn [andb].
    + rewrite (@count_frame_usable counts f E). unfold counter_incr.
      rewrite (Z.eqb_sym k).
      destruct (msg_type_bits (frame_payload f) =? k); cbn [length]; lia.
    + rewrite (@count_frame_unusable counts f (usable_type_false _ E)).
      lia.
Qed.

(** C6, as the code has it.  In every call of the decoder, whatever
    frames it cuts out together, a frame without a usable message type
    (payload shorter than 2 bytes, or type 0) is removed from the buffer
    like every other frame but is neither counted nor attributed to a
    type: the frame counter [rtcm_valid_frames] grows by the number of
    frames with a usable type, the types recorded are those of these
    frames, the state of [validate_rtcm_data] is the one the frames with a
    usable type alone lead to, and each per-type counter of
    [read_rtcm_stream] grows by the number of frames with a usable type
    that have this type. *)
Theorem unusable_frames_not_counted
  (t : timestamp) (st : rover_state) (sst : stream_state) (data : bytes) :
  let r := feed (ClearAbove 1024) (rtcm_buffer st) data in
  let rs := feed ClearAlways (buffer sst) data in
  let st' := validate_rtcm_data t st data in
  let sst' := read_rtcm_stream_chunk sst data in
  rtcm_buffer st' = snd r
  /\ buffer sst' = snd rs
  /\ rtcm_valid_frames st'
     = (rtcm_valid_frames st + length (filter usable_type (fst r)))%nat
  /\ rtcm_msg_types st'
     = fold_left record_type (filter usable_type (fst r)) (rtcm_msg_types st)
  /\ st' = fold_left (validate_frame t) (filter usable_type (fst r))
             (with_buffer st (snd r))
  /\ (forall k,
        msg_counts sst' k
        = (msg_counts sst k + length (filter (usable_as k) (fst rs)))%nat)
  /\ msg_counts sst'
     = fold_left count_frame (filter usable_type (fst rs)) (msg_counts sst).
Proof.
  intros r rs st' sst'. subst st' sst'.
  unfold validate_rtcm_data, read_rtcm_stream_chunk. fold r rs.
  cbn [buffer msg_counts].
  destruct (fold_validate_counted t (fst r) (with_buffer st (snd r)))
    as [Hn Hty].
  split; [now rewrite fold_validate_buffer|].
  split; [reflexivity|].
  split; [exact Hn|].
  split; [exact Hty|].
  split; [apply fold_validate_usable|].
  split; [intros k; apply fold_count_counted | apply fold_count_usable].
Qed.

(** A six-byte frame with an empty payload. *)
Definition empty_frame : bytes := [0xD3; 0; 0; 1; 2; 3].

(** C6, as stated, fails on [empty_frame]: the decoder cuts the frame
    out, its payload is shorter than two bytes, and the frame counter
    stays at 0. *)
Lemma empty_frame_not_counted :
  feed (ClearAbove 1024) (rtcm_buffer rover_init) empty_frame
  = ([empty_frame], [])
  /\ frame_payload empty_frame = []
  /\ rtcm_valid_frames (validate_rtcm_data 0 rover_init empty_frame)
     = 0%nat
  /\ rtcm_valid_frames (validate_rtcm_data 0 rover_init empty_frame)
     <> S (rtcm_valid_frames rover_init).
Proof. vm_compute. repeat split. discriminate. Qed.

(** A frame of type 1005 with a four-byte payload. *)
Definition frame_1005 : bytes := [0xD3; 0; 4; 0x3E; 0xD0; 1; 2; 9; 9; 9].

(** One call that cuts out a frame without usable type and a frame of type
    1005 together: the counter moves by one, for the second frame only. *)
Lemma mixed_call_counts_one :
  feed (ClearAbove 1024) (rtcm_buffer rover_init) (empty_frame ++ frame_1005)
  = ([empty_frame; frame_1005], [])
  /\ filter usable_type [empty_frame; frame_1005] = [frame_1005]
  /\ rtcm_valid_frames
       (validate_rtcm_data 0 rover_init (empty_frame ++ frame_1005))
     = 1%nat
  /\ rtcm_msg_types
       (validate_rtcm_data 0 rover_init (empty_frame ++ frame_1005))
     = [1005].
Proof. vm_compute. repeat split. Qed.

Lemma unusable_frames_not_counted_witness :
  rtcm_valid_frames
    (validate_rtcm_data 0 rover_init (empty_frame ++ frame_1005))
  = (rtcm_valid_frames rover_init
     + length (filter usable_type
                 (fst (feed (ClearAbove 1024) (rtcm_buffer rover_init)
                         (empty_frame ++ frame_1005)))))%nat.
Proof.
  exact (proj1 (proj2 (proj2
           (@unusable_frames_not_counted 0 rover_init stream_init
              (empty_frame ++ frame_1005))))).
Defined.

Lemma decode_buffer_bound_witness :
  retained_bound
    (rtcm_buffer
       (validate_rtcm_data 0 (with_buffer rover_init [0xD3; 0]) [4; 0x3E]))
  /\ retained_bound
       (buffer (read_rtcm_stream_chunk stream_init [4; 0x3E])).
Proof.
  apply (@decode_buffer_bound 0 (with_buffer rover_init [0xD3; 0])
           stream_init [4; 0x3E]);
    repeat constructor; unfold is_byte; lia.
Defined.

End RtcmFacts.

(** ** The SERIAL_CONTROL tunnel *)

Module TunnelFacts.
Import Net Tunnel.

(** The [count]-prefix of a transmitted data field. *)
Definition carried (m : serial_control) : bytes :=
  firstn (count m) (data m).

(** The message built from the chunk at [offset]. *)
Definition chunk_message (dev flg baud : Z) (payload : bytes)
  (offset : nat) : serial_control :=
  let chunk := slice payload offset (offset + 70) in
  {| device := dev; flags := flg; timeout := 0; baudrate := baud;
     count := length chunk;
     data := if (length chunk <? 70)%nat
             then chunk ++ repeat 0 (70 - length chunk) else chunk |}.

Lemma send_serial_loop_unfold dev flg baud payload offset :
  send_serial_loop dev flg baud payload offset =
  if (offset <? length payload)%nat then
    chunk_message dev flg baud payload offset
    :: send_serial_loop dev flg baud payload
         (offset + count (chunk_message dev flg baud payload offset))
  else [].
Proof.
  funelim (send_serial_loop dev flg baud payload offset).
  - match goal with E : (_ <? _)%nat = true |- _ => rewrite E end.
    reflexivity.
  - match goal with E : (_ <? _)%nat = false |- _ => rewrite E end.
    reflexivity.
Qed.

Lemma slice_70 (payload : bytes) offset :
  slice payload offset (offset + 70) = firstn 70 (skipn offset payload).
Proof. unfold slice. f_equal. lia. Qed.

Lemma chunk_count dev flg baud payload offset :
  count (chunk_message dev flg baud payload offset)
  = Nat.min 70 (length payload - offset).
Proof.
  simpl. now rewrite slice_70, length_firstn, length_skipn.
Qed.

Lemma chunk_carried dev flg baud payload offset :
  carried (chunk_message dev flg baud payload offset)
  = firstn 70 (skipn offset payload).
Proof.
  unfold carried. simpl. rewrite slice_70.
  set (chunk := firstn 70 (skipn offset payload)).
  destruct (length chunk <? 70)%nat.
  - rewrite firstn_app, firstn_all, Nat.sub_diag. simpl. apply app_nil_r.
  - apply firstn_all.
Qed.

Lemma chunk_padding dev flg baud payload offset :
  let m := chunk_message dev flg baud payload offset in
  length (data m) = 70%nat
  /\ skipn (count m) (data m) = repeat 0 (70 - count m).
Proof.
  cbv zeta. unfold chunk_message. cbn [count data]. rewrite slice_70.
  set (chunk := firstn 70 (skipn offset payload)).
  assert (Hlen : (length chunk <= 70)%nat)
    by (unfold chunk; rewrite length_firstn; lia).
  destruct (length chunk <? 70)%nat eqn:E.
  - apply Nat.ltb_lt in E. split.
    + rewrite length_app, repeat_length. lia.
    + rewrite skipn_app, skipn_all, Nat.sub_diag. reflexivity.
  - apply Nat.ltb_ge in E. split; [lia|].
    rewrite skipn_all. replace (70 - length chunk)%nat with 0%nat by lia.
    reflexivity.
Qed.

(** Number of 70-byte chunks needed for [n] bytes: ceil(n / 70). *)
Definition chunks_needed (n : nat) : nat := ((n + 69) / 70)%nat.

Lemma chunks_needed_step n c :
  c = Nat.min 70 n -> (0 < n)%nat ->
  chunks_needed n = S (chunks_needed (n - c)).
Proof.
  intros -> Hn. unfold chunks_needed.
  pose proof (Nat.div_mod_eq (n + 69) 70) as H1.
  pose proof (Nat.mod_upper_bound (n + 69) 70 ltac:(lia)) as H2.
  pose proof (Nat.div_mod_eq (n - Nat.min 70 n + 69) 70) as H3.
  pose proof (Nat.mod_upper_bound (n - Nat.min 70 n + 69) 70 ltac:(lia))
    as H4.
  lia.
Qed.

(** What the loop sends from [offset] on. *)
Lemma send_serial_loop_spec dev flg baud payload : forall n offset,
  (length payload - offset = n)%nat ->
  let msgs := send_serial_loop dev flg baud payload offset in
  length msgs = chunks_needed n
  /\ concat (map carried msgs) = skipn offset payload
  /\ (forall i m, nth_error msgs i = Some m ->
        count m = Nat.min 70 (n - 70 * i)
        /\ length (data m) = 70%nat
        /\ skipn (count m) (data m) = repeat 0 (70 - count m)).
Proof.
  induction n as [n IH] using lt_wf_ind. intros offset Hn msgs.
  subst msgs. rewrite send_serial_loop_unfold.
  destruct (offset <? length payload)%nat eqn:Hlt.
  - apply Nat.ltb_lt in Hlt.
    pose proof (chunk_count dev flg baud payload offset) as Hc.
    pose proof (chunk_carried dev flg baud payload offset) as Hcar.
    pose proof (chunk_padding dev flg baud payload offset) as Hpad.
    cbv zeta in Hpad.
    remember (chunk_message dev flg baud payload offset) as m0 eqn:Em0.
    destruct (IH (n - count m0)%nat ltac:(lia) (offset + count m0)%nat
                 ltac:(lia)) as (L & C & Each).
    split; [|split].
    + rewrite length_cons, L. symmetry. apply chunks_needed_step; lia.
    + rewrite map_cons, concat_cons, C, Hcar, Hc.
      transitivity (firstn 70 (skipn offset payload)
                    ++ skipn 70 (skipn offset payload));
        [|apply firstn_skipn].
      f_equal. rewrite skipn_skipn.
      destruct (Nat.le_gt_cases 70 n) as [Hge|Hsm].
      * f_equal. lia.
      * rewrite !skipn_all2; trivial; lia.
    + intros [|i] m.
      * rewrite nth_error_cons_0. intros E. injection E as <-.
        rewrite Nat.mul_0_r, Nat.sub_0_r.
        split; [lia|]. exact Hpad.
      * rewrite nth_error_cons_succ. intros Hm.
        destruct (Each i m Hm) as (Hcount & Hrest).
        split; [|exact Hrest]. rewrite Hcount. lia.
  - apply Nat.ltb_ge in Hlt. assert (n = 0%nat) as -> by lia.
    split; [reflexivity|]. split.
    + rewrite skipn_all2 by lia. reflexivity.
    + intros [|i] m; discriminate.
Qed.

(** C2. Outbound chunking of [send_serial_bytes].  A payload of L bytes
    is sent as ceil(L/70) messages; every message but the last has
    count = 70, the last has count = L mod 70, or 70 when L is a positive
    multiple of 70; every data field is 70 bytes long, what follows the
    first [count] bytes being zero padding; and the [count]-prefixes of the
    data fields, concatenated in the order sent, are the payload. *)
Theorem send_serial_bytes_chunks
  (dev : Z) (payload : bytes) (baud : Z) (exclusive : bool) :
  let L := length payload in
  let msgs := send_serial_bytes dev payload baud exclusive in
  length msgs = chunks_needed L
  /\ (forall i m, nth_error msgs i = Some m ->
        length (data m) = 70%nat
        /\ skipn (count m) (data m) = repeat 0 (70 - count m)
        /\ ((S i < length msgs)%nat -> count m = 70%nat)
        /\ ((S i = length msgs)%nat ->
            count m = if (L mod 70 =? 0)%nat then 70%nat
                      else (L mod 70)%nat))
  /\ concat (map carried msgs) = payload.
Proof.
  intros L msgs.
  destruct (@send_serial_loop_spec dev
              (if exclusive then FLAG_EXCLUSIVE else 0) baud payload
              L 0%nat (Nat.sub_0_r L))
    as (Hlen & Hcat & Each).
  fold (send_serial_bytes dev payload baud exclusive) in Hlen, Hcat, Each.
  fold msgs in Hlen, Hcat, Each.
  split; [exact Hlen|]. split; [|exact Hcat].
  intros i m Hm. destruct (Each i m Hm) as (Hcount & Hdata & Hpad).
  split; [exact Hdata|]. split; [exact Hpad|].
  rewrite Hlen, Hcount. unfold chunks_needed.
  pose proof (Nat.div_mod_eq L 70) as Hdm.
  pose proof (Nat.mod_upper_bound L 70 ltac:(lia)) as Hmod.
  pose proof (Nat.div_mod_eq (L + 69) 70) as Hdm'.
  pose proof (Nat.mod_upper_bound (L + 69) 70 ltac:(lia)) as Hmod'.
  split; intros Hi.
  - lia.
  - destruct (L mod 70 =? 0)%nat eqn:E.
    + apply Nat.eqb_eq in E. lia.
    + apply Nat.eqb_neq in E. lia.
Qed.

(** The 150-byte scenario: three messages with counts 70, 70 and 10, the
    third padded with 60 zero bytes. *)
Example send_150_bytes :
  let msgs := send_serial_bytes 3 (repeat 7 150) 115200 true in
  map count msgs = [70; 70; 10]%nat
  /\ map (fun m => length (data m)) msgs = [70; 70; 70]%nat
  /\ option_map (fun m => skipn 10 (data m)) (nth_error msgs 2)
     = Some (repeat 0 60).
Proof. vm_compute. repeat split. Qed.

(** *** Inbound messages *)

(** [gps2_to_tcp_loop] of [rtk_bridge.py] drops an all-zero payload and
    hands any other payload to [TcpBridge.send]. *)
Lemma gps2_to_tcp_recv_spec dev m b n :
  (0 < count m)%nat -> device m = dev ->
  gps2_to_tcp_recv dev (Some m) b n =
  if is_all_zero (firstn (count m) (data m)) then (b, n)
  else snd (bridge_send b n (firstn (count m) (data m))).
Proof.
  intros Hc Hd. unfold gps2_to_tcp_recv.
  apply Nat.ltb_lt in Hc. apply Z.eqb_eq in Hd. rewrite Hc, Hd. simpl.
  now destruct (is_all_zero _).
Qed.

(** A socket nothing was written to yet. *)
Definition fresh : socket_state :=
  {| sent := []; closed := false; broken := false |}.

(** A SERIAL_CONTROL reply for device 3 announcing three bytes, all of
    them zero. *)
Definition zero_reply : serial_control :=
  {| device := 3; flags := 0; timeout := 0; baudrate := 115200;
     count := 3; data := repeat 0 70 |}.

(** C7.  [mavlink_loop] of [uPrecise_forward.py] receives [zero_reply]
    for its device while a client is connected: the payload is all zero,
    yet its three bytes are written to the client.  The same message in
    [gps2_to_tcp_loop] of [rtk_bridge.py] writes nothing. *)
Theorem mavlink_loop_forwards_zero_payload :
  let b := {| client := Some 0%nat |} in
  let n : net := fun _ => fresh in
  is_all_zero (firstn (count zero_reply) (data zero_reply)) = true
  /\ sent (snd (mavlink_loop_recv 3 (Some zero_reply) b n) 0%nat)
     = [0; 0; 0]
  /\ sent (snd (gps2_to_tcp_recv 3 (Some zero_reply) b n) 0%nat) = [].
Proof. vm_compute. auto. Qed.

End TunnelFacts.

(** ** The client registry *)

Module RelayFacts.
Import Net Relay.

Lemma client_eqb_eq a b : client_eqb a b = true <-> a = b.
Proof.
  destruct a as [sa [ha pa]], b as [sb [hb pb]]. unfold client_eqb. simpl.
  rewrite !andb_true_iff, Nat.eqb_eq, String.eqb_eq, Z.eqb_eq.
  split; [intros [[-> ->] ->]; reflexivity | intros [= -> -> ->]; auto].
Qed.

Lemma client_eqb_refl a : client_eqb a a = true.
Proof. now apply client_eqb_eq. Qed.

Lemma client_eqb_neq a b : a <> b -> client_eqb a b = false.
Proof.
  intros H. destruct (client_eqb a b) eqn:E; [|reflexivity].
  now apply client_eqb_eq in E.
Qed.

(** A successful write changes one socket's [sent] and nothing else. *)
Lemma sendall_spec n s payload n' :
  sendall n s payload = Some n' ->
  write_fails n s = false
  /\ sent (n' s) = sent (n s) ++ payload
  /\ (forall s', s' <> s -> sent (n' s') = sent (n s'))
  /\ (forall s', write_fails n' s' = write_fails n s').
Proof.
  unfold sendall. destruct (write_fails n s) eqn:F; [discriminate|].
  intros [= <-]. unfold update, write_fails in *.
  repeat split.
  - now rewrite Nat.eqb_refl.
  - intros s' Hs. apply Nat.eqb_neq in Hs. now rewrite Hs.
  - intros s'. destruct (Nat.eqb_spec s' s) as [->|_]; reflexivity.
Qed.

Lemma sendall_fails n s payload :
  sendall n s payload = None -> write_fails n s = true.
Proof.
  unfold sendall. now destruct (write_fails n s).
Qed.

(** The first loop of [broadcast]: the clients whose write failed are
    collected in registry order; every other client's socket received the
    data once; no other socket changed. *)
Lemma broadcast_send_spec payload : forall todo n disconnected,
  NoDup (map fst todo) ->
  let r := broadcast_send todo payload n disconnected in
  snd r = disconnected
          ++ filter (fun c => write_fails n (fst c)) todo
  /\ (forall s, write_fails (fst r) s = write_fails n s)
  /\ (forall s, In s (map fst todo) -> write_fails n s = false ->
        sent (fst r s) = sent (n s) ++ payload)
  /\ (forall s, ~ In s (map fst todo) \/ write_fails n s = true ->
        sent (fst r s) = sent (n s)).
Proof.
  induction todo as [|c todo IH]; intros n disconnected Hnd; simpl.
  - rewrite app_nil_r. repeat split; tauto.
  - simpl in Hnd. apply NoDup_cons_iff in Hnd as [Hc Hnd].
    destruct (sendall n (fst c) payload) as [n1|] eqn:E.
    + apply sendall_spec in E as (F & Sc & So & W).
      destruct (IH n1 disconnected Hnd) as (D & W' & S1 & S2).
      rewrite F. split; [|split; [|split]].
      * rewrite D. f_equal. apply filter_ext. intros a. apply W.
      * intros s. now rewrite W', W.
      * intros s [<-|Hin] Hs.
        -- rewrite S2 by tauto. exact Sc.
        -- rewrite S1; trivial; [|now rewrite W].
           rewrite So; trivial. intros ->. tauto.
      * intros s Hs. rewrite S2.
        -- apply So. intros ->. destruct Hs as [Hs|Hs]; [tauto|congruence].
        -- rewrite W. tauto.
    + apply sendall_fails in E.
      destruct (IH n (disconnected ++ [c]) Hnd) as (D & W' & S1 & S2).
      rewrite E. split; [|split; [|split]].
      * eapply eq_trans; [exact D|]. now rewrite <- app_assoc.
      * exact W'.
      * intros s [<-|Hin] Hs; [congruence | now apply S1].
      * intros s Hs. apply S2.
        destruct (Nat.eq_dec s (fst c)) as [->|Hne]; [tauto|].
        destruct Hs as [Hs|Hs]; [left|now right]. tauto.
Qed.

Lemma filter_only (f : client -> bool) (cj : client) : forall l,
  NoDup l -> In cj l ->
  (forall c, In c l -> (f c = true <-> c = cj)) ->
  filter f l = [cj].
Proof.
  induction l as [|y l IH]; intros Hnd Hin Hf; [contradiction|].
  apply NoDup_cons_iff in Hnd as [Hy Hnd]. simpl.
  assert (Hrest : forall c, In c l -> c <> cj -> f c = false).
  { intros c Hc Hne. destruct (f c) eqn:E; [|reflexivity].
    apply Hf in E; [contradiction | now right]. }
  destruct Hin as [->|Hin].
  - rewrite (proj2 (Hf cj (or_introl eq_refl)) eq_refl). f_equal.
    clear IH Hf Hnd. induction l as [|z l IHl]; [reflexivity|]. simpl.
    rewrite Hrest; [|now left|].
    + apply IHl; [simpl in Hy; tauto|].
      intros c Hc. apply Hrest. now right.
    + intros ->. apply Hy. now left.
  - assert (y <> cj) by (intros ->; contradiction).
    destruct (f y) eqn:E.
    + apply Hf in E; [contradiction | now left].
    + apply IH; trivial. intros c Hc. apply Hf. now right.
Qed.

Lemma list_remove_nth cj : forall l j,
  NoDup l -> nth_error l j = Some cj ->
  list_remove cj l = firstn j l ++ skipn (S j) l.
Proof.
  induction l as [|y l IH]; intros [|j] Hnd Hj; try discriminate.
  - simpl in Hj. injection Hj as ->. simpl. now rewrite client_eqb_refl.
  - simpl in Hj. apply NoDup_cons_iff in Hnd as [Hy Hnd].
    assert (y <> cj) by (intros ->; apply Hy; eapply nth_error_In; eauto).
    simpl. rewrite client_eqb_neq by assumption.
    f_equal. now apply IH.
Qed.

Lemma nth_error_split_at {A} (l : list A) j x :
  nth_error l j = Some x -> l = firstn j l ++ x :: skipn (S j) l.
Proof.
  revert j. induction l as [|y l IH]; intros [|j] H; try discriminate.
  - simpl in *. congruence.
  - simpl in *. f_equal. now apply IH.
Qed.

(** C3.  A registry of k distinct sockets is broadcast to, and exactly
    one client, the one at position j, fails on write.  Afterwards the
    registry is the old one without that client, in the old order, so
    k - 1 clients; the failed client's socket is closed; every other
    client is still registered, its socket is open and has received the
    data, appended whole to what it had received before. *)
Theorem broadcast_one_failure
  (clients : list client) (n : net) (payload : bytes)
  (j : nat) (cj : client) :
  NoDup (map fst clients) ->
  nth_error clients j = Some cj ->
  (forall c, In c clients -> (write_fails n (fst c) = true <-> c = cj)) ->
  let k := get_count clients in
  let clients' := fst (broadcast clients n payload) in
  let n' := snd (broadcast clients n payload) in
  clients' = firstn j clients ++ skipn (S j) clients
  /\ get_count clients' = (k - 1)%nat
  /\ ~ In cj clients'
  /\ closed (n' (fst cj)) = true
  /\ (forall c, In c clients -> c <> cj ->
        In c clients'
        /\ sent (n' (fst c)) = sent (n (fst c)) ++ payload
        /\ closed (n' (fst c)) = false).
Proof.
  intros Hsock Hj Hfail k clients' n'.
  assert (Hnd : NoDup clients) by (eapply NoDup_map_inv; eauto).
  assert (Hin : In cj clients) by (eapply nth_error_In; eauto).
  destruct (@broadcast_send_spec payload clients n [] Hsock)
    as (D & W & S1 & S2).
  assert (D' : snd (broadcast_send clients payload n []) = [cj]).
  { eapply eq_trans; [exact D|].
    exact (filter_only (fun c => write_fails n (fst c)) Hnd Hin Hfail). }
  assert (Eb : broadcast clients n payload
               = (list_remove cj clients,
                  close (fst (broadcast_send clients payload n []))
                        (fst cj))).
  { unfold broadcast. rewrite D'. reflexivity. }
  subst clients' n'. rewrite Eb. cbn [fst snd].
  rewrite (@list_remove_nth cj clients j Hnd Hj).
  pose proof (@nth_error_split_at _ clients j cj Hj) as Esplit.
  assert (Hlen : length clients
                 = S (length (firstn j clients ++ skipn (S j) clients))).
  { rewrite Esplit at 1. rewrite !length_app. simpl. lia. }
  assert (Hout : ~ In cj (firstn j clients ++ skipn (S j) clients)).
  { rewrite Esplit in Hnd. now apply NoDup_remove_2 in Hnd. }
  split; [reflexivity|]. split; [unfold k, get_count; lia|].
  split; [exact Hout|]. split.
  - unfold close, update. now rewrite Nat.eqb_refl.
  - intros c Hc Hne.
    assert (Hs : fst c <> fst cj).
    { intros E. apply Hne.
      rewrite Esplit in Hsock, Hc. rewrite map_app in Hsock. simpl in Hsock.
      exfalso. apply NoDup_remove_2 in Hsock. apply Hsock.
      rewrite <- map_app, <- E. apply in_map.
      apply in_app_or in Hc as [Hc|[Hc|Hc]];
        [apply in_or_app; now left | congruence
        | apply in_or_app; now right]. }
    assert (Hok : write_fails n (fst c) = false).
    { destruct (write_fails n (fst c)) eqn:E; [|reflexivity].
      now apply Hfail in E. }
    split; [|split].
    + rewrite Esplit in Hc.
      apply in_app_or in Hc as [Hc|[Hc|Hc]];
        [apply in_or_app; now left | congruence
        | apply in_or_app; now right].
    + unfold close, update. apply Nat.eqb_neq in Hs. rewrite Hs.
      apply S1; [now apply in_map | exact Hok].
    + unfold close, update. apply Nat.eqb_neq in Hs. rewrite Hs.
      pose proof (W (fst c)) as Hw. rewrite Hok in Hw.
      unfold write_fails in Hw. now apply orb_false_elim in Hw as [Hw _].
Qed.

(** Three clients, the second one's peer gone. *)
Definition three_clients : list client :=
  [(0%nat, ("10.0.0.1"%string, 5001)); (1%nat, ("10.0.0.2"%string, 5002));
   (2%nat, ("10.0.0.3"%string, 5003))].

Definition second_broken : net :=
  fun s => {| sent := [9]; closed := false; broken := (s =? 1)%nat |}.

Lemma broadcast_one_failure_witness :
  fst (broadcast three_clients second_broken [1; 2; 3])
  = [(0%nat, ("10.0.0.1"%string, 5001)); (2%nat, ("10.0.0.3"%string, 5003))]
  /\ closed (snd (broadcast three_clients second_broken [1; 2; 3]) 1%nat)
     = true.
Proof.
  assert (Hsock : NoDup (map fst three_clients)).
  { repeat constructor; simpl; intuition discriminate. }
  assert (Hfail : forall c, In c three_clients ->
            (write_fails second_broken (fst c) = true
             <-> c = (1%nat, ("10.0.0.2"%string, 5002)))).
  { intros c [<-|[<-|[<-|[]]]]; split; intros H; try reflexivity;
      discriminate H. }
  destruct (@broadcast_one_failure three_clients second_broken [1; 2; 3]
              1%nat (1%nat, ("10.0.0.2"%string, 5002))
              Hsock eq_refl Hfail) as (H1 & _ & _ & H4 & _).
  split; [exact H1 | exact H4].
Defined.

End RelayFacts.

(** ** The handshake *)

Module HandshakeFacts.
Import Handshake.

(** *** Searching a byte string *)

(** [pat] is found in [h] at position [i]. *)
Definition occurs_at (pat h : bytes) (i : nat) : Prop :=
  startswith pat (skipn i h) = true.

(** [i] is the first position from [start] on where [pat] is found. *)
Definition first_at (pat h : bytes) (start i : nat) : Prop :=
  (start <= i)%nat /\ occurs_at pat h i
  /\ forall k, (start <= k < i)%nat -> ~ occurs_at pat h k.

(** [pat] is found nowhere from [start] on. *)
Definition absent_from (pat h : bytes) (start : nat) : Prop :=
  forall k, (start <= k)%nat -> ~ occurs_at pat h k.

Lemma startswith_length pat s :
  startswith pat s = true -> (length pat <= length s)%nat.
Proof.
  revert s. induction pat as [|p pat IH]; intros [|c s]; simpl;
    try discriminate; try lia.
  intros H. apply andb_prop in H as [_ H]. apply IH in H. lia.
Qed.

Lemma occurs_at_inside pat h i :
  pat <> [] -> occurs_at pat h i -> (i + length pat <= length h)%nat.
Proof.
  intros Hpat H. apply startswith_length in H.
  rewrite length_skipn in H.
  destruct pat; [contradiction|]. simpl in *. lia.
Qed.

Lemma find_first pat : pat <> [] -> forall s,
  match find pat s with
  | Some i => first_at pat s 0 i
  | None => absent_from pat s 0
  end.
Proof.
  intros Hpat. induction s as [|c s IH].
  - simpl. intros k _. unfold occurs_at. rewrite skipn_nil.
    destruct pat; [contradiction | discriminate].
  - cbn [find]. destruct (startswith pat (c :: s)) eqn:E.
    + split; [lia|]. split; [exact E|]. intros k Hk. lia.
    + destruct (find pat s) as [i|]; simpl.
      * destruct IH as (_ & Hi & Hmin).
        split; [lia|]. split; [exact Hi|].
        intros [|k] Hk; unfold occurs_at; simpl.
        -- now rewrite E.
        -- apply Hmin. lia.
      * intros [|k] _; unfold occurs_at; simpl.
        -- now rewrite E.
        -- apply IH. lia.
Qed.

Lemma find_from_first pat : pat <> [] -> forall s start,
  match find_from pat s start with
  | Some i => first_at pat s start i
  | None => absent_from pat s start
  end.
Proof.
  intros Hpat s start. unfold find_from.
  pose proof (find_first Hpat (skipn start s)) as H.
  assert (Hshift : forall k, occurs_at pat (skipn start s) k
                             <-> occurs_at pat s (start + k)).
  { intros k. unfold occurs_at. rewrite skipn_skipn.
    now rewrite (Nat.add_comm k start). }
  destruct (find pat (skipn start s)) as [i|]; simpl.
  - destruct H as (_ & Hi & Hmin). split; [lia|].
    split; [now apply Hshift|].
    intros k Hk Hocc. apply (Hmin (k - start)%nat); [lia|].
    apply Hshift. now replace (start + (k - start))%nat with k by lia.
  - intros k Hk Hocc. apply (H (k - start)%nat); [lia|].
    apply Hshift. now replace (start + (k - start))%nat with k by lia.
Qed.

Lemma first_at_unique pat h start i i' :
  first_at pat h start i -> first_at pat h start i' -> i = i'.
Proof.
  intros (Hs & Hi & Hmin) (Hs' & Hi' & Hmin').
  destruct (Nat.lt_trichotomy i i') as [Hlt|[->|Hlt]]; trivial.
  - exfalso. apply (Hmin' i); [lia | exact Hi].
  - exfalso. apply (Hmin i'); [lia | exact Hi'].
Qed.

Lemma first_at_present pat h start i :
  first_at pat h start i -> ~ absent_from pat h start.
Proof. intros (Hs & Hi & _) Habs. exact (Habs i Hs Hi). Qed.

(** *** The split point *)

(** Byte [i] of the header is a control byte other than tab, LF, CR. *)
Definition control_at (h : bytes) (i : nat) : Prop :=
  exists b, nth_error h i = Some b /\ is_control b = true.

(** [i] is the first control byte at a position in [lo, hi). *)
Definition first_control_in (h : bytes) (lo hi i : nat) : Prop :=
  (lo <= i < hi)%nat /\ control_at h i
  /\ forall k, (lo <= k < i)%nat -> ~ control_at h k.

Definition no_control_in (h : bytes) (lo hi : nat) : Prop :=
  forall k, (lo <= k < hi)%nat -> ~ control_at h k.

Lemma scan_control_spec h : forall n i,
  (n = 0 \/ i + n <= length h)%nat ->
  match scan_control h i n with
  | Return (Some j) => first_control_in h i (i + n) j
  | Return None => no_control_in h i (i + n)
  | Raise _ => False
  end.
Proof.
  induction n as [|n IH]; intros i Hn; simpl.
  - intros k Hk. lia.
  - destruct (nth_error h i) as [b|] eqn:Eb.
    + destruct (is_control b) eqn:Ec.
      * split; [lia|]. split; [now exists b|]. intros k Hk. lia.
      * specialize (IH (S i) ltac:(lia)).
        destruct (scan_control h (S i) n) as [[j|]|e]; trivial.
        -- destruct IH as (Hj & Hc & Hmin).
           split; [lia|]. split; [exact Hc|].
           intros k Hk. destruct (Nat.eq_dec k i) as [->|Hne].
           ++ intros (b' & Eb' & Ec'). congruence.
           ++ apply Hmin. lia.
        -- intros k Hk. destruct (Nat.eq_dec k i) as [->|Hne].
           ++ intros (b' & Eb' & Ec'). congruence.
           ++ apply IH. lia.
    + apply nth_error_None in Eb. lia.
Qed.

(** [s] is where the status line ends ([status_end]): the position of
    the first CRLF, or of the first LF when the buffer holds no CRLF. *)
Definition status_end_at (header : bytes) (s : nat) : Prop :=
  first_at CRLF header 0 s
  \/ (absent_from CRLF header 0 /\ first_at [LF] header 0 s).

(** Where [check_response_header] cuts a buffer, told from the buffer
    alone: one of the five cases applies to every buffer. *)
Definition split_located (header : bytes) (header_end : nat) : Prop :=
  (forall p, first_at CRLFCRLF header 0 p -> header_end = (p + 4)%nat)
  /\ (absent_from CRLFCRLF header 0 ->
      forall s, status_end_at header s ->
        (forall d, first_at [0xD3] header (s + 2) d -> header_end = d)
        /\ (absent_from [0xD3] header (s + 2) ->
            let window_end := Nat.min (length header) (s + 200) in
            (forall i, first_control_in header (s + 2) window_end i ->
               header_end = i)
            /\ (no_control_in header (s + 2) window_end ->
                header_end = length header)))
  /\ (absent_from CRLFCRLF header 0 -> absent_from [LF] header 0 ->
      header_end = length header).


Lemma first_control_unique h lo hi i i' :
  first_control_in h lo hi i -> first_control_in h lo hi i' -> i = i'.
Proof.
  intros (Hs & Hi & Hmin) (Hs' & Hi' & Hmin').
  destruct (Nat.lt_trichotomy i i') as [Hlt|[->|Hlt]]; trivial.
  - exfalso. apply (Hmin' i); [lia | exact Hi].
  - exfalso. apply (Hmin i'); [lia | exact Hi'].
Qed.

Lemma crlf_has_lf h s : occurs_at CRLF h s -> occurs_at [LF] h (S s).
Proof.
  unfold occurs_at. change (S s) with (1 + s)%nat.
  rewrite <- (skipn_skipn 1 s h).
  destruct (skipn s h) as [|a [|b r]]; simpl; try discriminate.
  - rewrite andb_false_r. discriminate.
  - intros H. apply andb_prop in H as [_ H]. exact H.
Qed.

(** The end of the status line as both handshakes look for it. *)
Lemma status_end_spec header :
  match match find CRLF header with
        | Some s => Some s
        | None => find [LF] header
        end with
  | Some s =>
      status_end_at header s
      /\ (forall s', status_end_at header s' -> s' = s)
      /\ ~ absent_from [LF] header 0
  | None =>
      absent_from [LF] header 0 /\ forall s', ~ status_end_at header s'
  end.
Proof.
  assert (N2 : CRLF <> []) by discriminate.
  assert (N1 : [LF] <> []) by discriminate.
  pose proof (find_first N2 header) as H2.
  pose proof (find_first N1 header) as H1.
  destruct (find CRLF header) as [s|].
  - split; [now left|]. split.
    + intros s' [Hs'|[Habs _]].
      * eapply first_at_unique; eauto.
      * now apply first_at_present in H2.
    + intros Hlf. destruct H2 as (_ & Hs & _).
      apply crlf_has_lf in Hs. apply (Hlf (S s)); [lia | exact Hs].
  - destruct (find [LF] header) as [s|].
    + split; [right; now split|]. split.
      * intros s' [Hs'|[_ Hs']].
        -- now apply first_at_present in Hs'.
        -- eapply first_at_unique; eauto.
      * now apply first_at_present in H1.
    + split; [exact H1|].
      intros s' [Hs'|[_ Hs']].
      * now apply first_at_present in Hs'.
      * now apply first_at_present in Hs'.
Qed.

(** [locate_split] never indexes out of range, stays inside the buffer,
    and cuts where [split_located] says. *)
Lemma locate_split_spec header :
  exists header_end,
    locate_split header = Return header_end
    /\ (header_end <= length header)%nat
    /\ split_located header header_end.
Proof.
  assert (N4 : CRLFCRLF <> []) by discriminate.
  assert (Nd : [0xD3] <> []) by discriminate.
  unfold locate_split.
  pose proof (find_first N4 header) as H4.
  destruct (find CRLFCRLF header) as [p|].
  { exists (p + 4)%nat. split; [reflexivity|]. split.
    - destruct H4 as (_ & Hp & _).
      apply (occurs_at_inside N4) in Hp. simpl in Hp. lia.
    - split; [|split].
      + intros p' Hp'. f_equal. eapply first_at_unique; eauto.
      + intros Habs. now apply first_at_present in H4.
      + intros Habs. now apply first_at_present in H4. }
  pose proof (status_end_spec header) as Hend.
  destruct (match find CRLF header with
            | Some s => Some s
            | None => find [LF] header
            end) as [s|].
  - destruct Hend as (Hs & Huniq & Hlf).
    pose proof (find_from_first Nd header (s + 2)) as Hd.
    destruct (find_from [0xD3] header (s + 2)) as [d|].
    + exists d. split; [reflexivity|]. split.
      * destruct Hd as (_ & Hd & _).
        apply (occurs_at_inside Nd) in Hd. simpl in Hd. lia.
      * split; [|split].
        -- intros p Hp. now apply first_at_present in Hp.
        -- intros _ s' Hs'. rewrite (Huniq s' Hs'). split.
           ++ intros d' Hd'. eapply first_at_unique; eauto.
           ++ intros Habs. now apply first_at_present in Hd.
        -- intros _ Habs. contradiction.
    + set (window_end := Nat.min (length header) (s + 200)).
      pose proof (@scan_control_spec header (window_end - (s + 2))
                    (s + 2) ltac:(lia)) as Hc.
      destruct (scan_control header (s + 2) (window_end - (s + 2)))
        as [[i|]|e]; [| |contradiction].
      * assert (Hi : first_control_in header (s + 2) window_end i).
        { destruct Hc as (Hr & Hci & Hmin). split; [lia|]. now split. }
        exists i. split; [reflexivity|]. split.
        -- destruct Hi as (Hr & _). unfold window_end in Hr. lia.
        -- split; [|split].
           ++ intros p Hp. now apply first_at_present in Hp.
           ++ intros _ s' Hs'. rewrite (Huniq s' Hs'). split.
              ** intros d' Hd'. now apply first_at_present in Hd'.
              ** intros _. cbv zeta. fold window_end. split.
                 --- intros i' Hi'. eapply first_control_unique; eauto.
                 --- intros Hno. destruct Hi as (Hr & Hci & _).
                     exfalso. exact (Hno i Hr Hci).
           ++ intros _ Habs. contradiction.
      * exists (length header). split; [reflexivity|]. split; [lia|].
        split; [|split].
        -- intros p Hp. now apply first_at_present in Hp.
        -- intros _ s' Hs'. rewrite (Huniq s' Hs'). split.
           ++ intros d' Hd'. now apply first_at_present in Hd'.
           ++ intros _. cbv zeta. fold window_end. split.
              ** intros i' (Hr & Hci & _). exfalso.
                 apply (Hc i'); [lia | exact Hci].
              ** reflexivity.
        -- reflexivity.
  - destruct Hend as [Hlf Hnone].
    exists (length header). split; [reflexivity|]. split; [lia|].
    split; [|split].
    + intros p Hp. now apply first_at_present in Hp.
    + intros _ s' Hs'. now apply Hnone in Hs'.
    + reflexivity.
Qed.


(** The status line [check_response_header] judges a response by. *)
Definition response_status_line (header : bytes) : bytes :=
  match locate_split header with
  | Return header_end => status_line_of (firstn header_end header)
  | Raise _ => []
  end.

Lemma check_response_header_unfold header :
  exists header_end,
    locate_split header = Return header_end
    /\ (header_end <= length header)%nat
    /\ split_located header header_end
    /\ check_response_header header
       = classify (response_status_line header)
                  (firstn header_end header, skipn header_end header).
Proof.
  destruct (locate_split_spec header) as (e & He & Hle & Hspec).
  exists e. split; [exact He|]. split; [exact Hle|].
  split; [exact Hspec|].
  unfold check_response_header, response_status_line. rewrite He.
  destruct (e <? length header)%nat eqn:E; [reflexivity|].
  apply Nat.ltb_ge in E. now rewrite skipn_all2.
Qed.

Lemma classify_return status_line ok r :
  classify status_line ok = Return r ->
  is_success status_line = true /\ r = ok.
Proof.
  unfold classify. destruct (is_success status_line).
  - intros [= <-]. auto.
  - repeat match goal with
           | |- context [if ?c then _ else _] => destruct c
           end; discriminate.
Qed.







(** A success line ended by a bare line feed, a letter, then the first
    bytes of a frame. *)
Definition bare_lf_sync : bytes :=
  of_string "ICY 200 OK" ++ [LF; 65] ++ [0xD3; 1; 2].


(** The cut is forced: on [bare_lf_sync] the status line ends at the line
    feed, position 10, the first sync byte from position 12 on is at 12,
    and so the split point can only be 12. *)
Lemma bare_lf_sync_split (header_end : nat) :
  split_located bare_lf_sync header_end -> header_end = 12%nat.
Proof.
  intros (_ & Hmid & _).
  assert (Habs4 : absent_from CRLFCRLF bare_lf_sync 0).
  { pose proof (@find_first CRLFCRLF ltac:(discriminate) bare_lf_sync) as H.
    exact H. }
  assert (Hcr : absent_from CRLF bare_lf_sync 0).
  { pose proof (@find_first CRLF ltac:(discriminate) bare_lf_sync) as H.
    exact H. }
  assert (Hlf : first_at [LF] bare_lf_sync 0 10).
  { pose proof (@find_first [LF] ltac:(discriminate) bare_lf_sync) as H.
    exact H. }
  assert (Hd : first_at [0xD3] bare_lf_sync (10 + 2) 12).
  { pose proof (@find_from_first [0xD3] ltac:(discriminate)
                  bare_lf_sync (10 + 2)) as H.
    exact H. }
  destruct (Hmid Habs4 10%nat (or_intror (conj Hcr Hlf))) as [Hsync _].
  exact (Hsync 12%nat Hd).
Qed.

(** A success line that also holds the digits 401. *)
Definition success_with_401 : bytes :=
  of_string "ICY 200 OK 401" ++ CRLFCRLF.

(** C5, as stated, fails on [success_with_401]: the status line contains
    "401" and the response is accepted. *)
Lemma status_401_accepted :
  contains (of_string "401") (response_status_line success_with_401) = true
  /\ check_response_header success_with_401
     = Return (success_with_401, []).
Proof. vm_compute. split; reflexivity. Qed.

(** C5, as the code has it.  A response whose status line contains "401"
    and is not a success line (does not start with "ICY 200" and does not
    contain " 200 ") raises the authentication failure; nothing is
    returned. *)
Theorem status_401_is_auth_failure (header : bytes) :
  contains (of_string "401") (response_status_line header) = true ->
  is_success (response_status_line header) = false ->
  check_response_header header = Raise AuthenticationFailed.
Proof.
  intros H401 Hfail.
  destruct (check_response_header_unfold header) as (e & _ & _ & _ & Hc).
  rewrite Hc. unfold classify. now rewrite Hfail, H401.
Qed.

Definition unauthorized_response : bytes :=
  of_string "HTTP/1.1 401 Unauthorized" ++ CRLFCRLF.

Lemma status_401_is_auth_failure_witness :
  check_response_header unauthorized_response = Raise AuthenticationFailed.
Proof.
  apply (@status_401_is_auth_failure unauthorized_response); reflexivity.
Defined.

(** C10.  An empty response buffer (the caster closed the connection
    before sending anything) raises the unexpected-response error with the
    empty status line: no success, nothing returned, no index error. *)
Theorem empty_response_unexpected :
  check_response_header [] = Raise (UnexpectedResponse []).
Proof. reflexivity. Qed.

(** *** The read loop *)

Lemma max_header_value : Z.of_nat max_header = 65536.
Proof. vm_compute. reflexivity. Qed.

Lemma recv_bound bufsize pending chunk pending' :
  recv bufsize pending = (Some chunk, pending') ->
  (length chunk <= bufsize)%nat.
Proof.
  unfold recv. destruct pending as [|[|s] rest]; try discriminate.
  - intros [= <- _]. simpl. lia.
  - destruct (length s <=? bufsize)%nat eqn:E.
    + intros [= <- _]. now apply Nat.leb_le.
    + intros [= <- _]. rewrite length_firstn. lia.
Qed.

Lemma read_header_step_bound header pending :
  match read_header_step header pending with
  | Continue header' _ | Break header' _ =>
      (length header' <= length header + 1024)%nat
  | TimedOut => True
  end.
Proof.
  unfold read_header_step.
  destruct (recv 1024 pending) as [[chunk|] pending'] eqn:E.
  - apply recv_bound in E.
    destruct chunk as [|c chunk]; [lia|].
    assert (length (header ++ c :: chunk) <= length header + 1024)%nat
      by (rewrite length_app; lia).
    destruct (contains CRLFCRLF _); [assumption|].
    destruct (has_200 _ && _); assumption.
  - destruct (has_200 header); [lia | exact I].
Qed.

Lemma read_header_bound header pending :
  forall header' pending',
    read_header header pending = Some (header', pending') ->
    (length header < max_header + 1024)%nat ->
    (length header' < max_header + 1024)%nat.
Proof.
  funelim (read_header header pending); intros h' p' Hr Hlen.
  - injection Hr as <- <-. exact Hlen.
  - match goal with IH : forall _ _, read_header _ _ = _ -> _ |- _ =>
      apply (IH _ _ Hr) end.
    pose proof (read_header_step_bound header pending) as Hb.
    rewrite Hstep in Hb.
    pose proof (proj1 (Nat.ltb_lt _ _) Hlt) as Hlt'. lia.
  - injection Hr as <- <-.
    pose proof (read_header_step_bound header pending) as Hb.
    match goal with E : read_header_step _ _ = Break _ _ |- _ =>
      rewrite E in Hb end.
    pose proof (proj1 (Nat.ltb_lt _ _) Hlt) as Hlt'. lia.
  - discriminate.
Qed.

(** One byte, then more than 64 KiB of letters: no blank line, no status
    token. *)
Definition slow_start : list recv_event :=
  [Segment [65]; Segment (repeat 65 (Z.to_nat 70000))].

(** C9.  The header buffer is meant never to exceed the 64 KiB cap
    [max_header] = 65536.  On [slow_start] the read loop of
    [connect_ntrip] ends with 65537 bytes in the header buffer: the guard
    [len(header) < max_header] is checked before [recv(1024)] and the
    chunk read is appended whole. *)
Lemma header_exceeds_cap :
  option_map
    (fun r => (Z.of_nat (length (fst r)),
               Z.of_nat max_header <? Z.of_nat (length (fst r))))
    (connect_ntrip slow_start)
  = Some (65537, true).
Proof. vm_compute. reflexivity. Qed.

(** What the loop does keep: it reads only while the header buffer holds
    fewer than 65536 bytes, and a read adds at most 1024 bytes, so the
    buffer the loop ends with, and every buffer before it, holds at most
    65535 + 1024 bytes. *)
Theorem header_buffer_bound
  (pending : list recv_event) (header : bytes) (rest : list recv_event) :
  connect_ntrip pending = Some (header, rest) ->
  Z.of_nat (length header) <= 65535 + 1024.
Proof.
  intros H. unfold connect_ntrip in H.
  apply read_header_bound in H.
  - pose proof max_header_value. lia.
  - simpl. lia.
Qed.

Lemma header_buffer_bound_witness :
  Z.of_nat (length (of_string "ICY 200 OK" ++ CRLFCRLF)) <= 65535 + 1024.
Proof.
  apply (@header_buffer_bound
           [Segment (of_string "ICY 200 OK" ++ CRLFCRLF)]
           (of_string "ICY 200 OK" ++ CRLFCRLF) []).
  reflexivity.
Defined.

End HandshakeFacts.

(* ===================================================================== *)
(** * Further properties of the frame decoder *)
(* ===================================================================== *)

Module RtcmMore.
Import Rtcm Stream RtcmFacts.

(** *** Any byte stream, any chunking *)

Lemma feed_all_canon_rest p chunks : forall seen,
  sync_tail (snd (feed_all p (snd (parse_loop p seen)) chunks))
  = snd (canon (seen ++ concat chunks)).
Proof.
  induction chunks as [|c chunks IH]; intros seen; cbn [feed_all concat].
  - rewrite app_nil_r. apply parse_loop_canon.
  - cbv zeta. cbn [snd]. unfold feed.
    set (buf := snd (parse_loop p seen)).
    rewrite (IH (buf ++ c)), <- app_assoc.
    rewrite (canon_app seen (c ++ concat chunks)). cbn [snd].
    destruct (parse_loop_canon p seen) as [_ <-]. fold buf.
    now rewrite <- canon_app_sync_tail.
Qed.

(** X1.  Chunking never matters, whatever the bytes are (corrupted frames,
    sync bytes inside noise, a truncated tail): the frames cut out over
    successive calls are those of one call on the whole sequence, and the
    retained buffers agree from their first sync byte on. *)
Theorem feed_all_any_stream (p : garbage_policy) (chunks : list bytes) :
  fst (feed_all p [] chunks) = fst (feed p [] (concat chunks))
  /\ sync_tail (snd (feed_all p [] chunks))
     = sync_tail (snd (feed p [] (concat chunks))).
Proof.
  unfold feed. cbn [app]. split.
  - rewrite feed_all_from_empty.
    symmetry. apply parse_loop_canon.
  - pose proof (feed_all_canon_rest p chunks []) as H.
    rewrite (parse_loop_nil p) in H. cbn [snd app] in H. rewrite H.
    symmetry. apply parse_loop_canon.
Qed.

(** *** What is cut out is a frame; what is skipped holds no sync byte *)

Lemma step_at_sync_is_frame t f r :
  step_at_sync (SYNC :: t) = inl (f, r) ->
  is_frame f = true /\ SYNC :: t = f ++ r.
Proof.
  unfold step_at_sync.
  destruct (length (SYNC :: t) <? 3)%nat eqn:H3; [discriminate|].
  apply Nat.ltb_ge in H3.
  destruct t as [|h0 [|h1 rest]]; try (simpl in H3; lia).
  change (nth 1 (SYNC :: h0 :: h1 :: rest) 0) with h0.
  change (nth 2 (SYNC :: h0 :: h1 :: rest) 0) with h1.
  remember (frame_len h0 h1) as flen eqn:Eflen.
  destruct (length (SYNC :: h0 :: h1 :: rest) <? flen)%nat eqn:Hfl;
    [discriminate|].
  apply Nat.ltb_ge in Hfl. intros H. injection H as <- <-.
  split; [|now rewrite firstn_skipn].
  assert (E : flen = S (S (S (Z.to_nat (declared_length h0 h1) + 3))))
    by (subst flen; unfold frame_len; lia).
  rewrite E. cbn [firstn is_frame].
  rewrite Z.eqb_refl. cbn [andb]. apply Nat.eqb_eq.
  rewrite length_firstn. cbn [length] in Hfl. lia.
Qed.

(** X2.  Every input splits into a clean stream, whose frames are exactly the
    frames cut out, in order, and a tail from which nothing is cut out.
    So each frame cut out starts with the sync byte and is 3 + declared
    length + 3 bytes long, frames come out in input order without
    overlapping, and the bytes skipped before a frame hold no sync byte. *)
Theorem parse_loop_decomposes (p : garbage_policy) (buf : bytes) :
  exists segs tail,
    buf = stream_bytes segs ++ tail
    /\ Forall clean segs
    /\ frames_of segs = fst (parse_loop p buf)
    /\ fst (parse_loop p tail) = []
    /\ snd (parse_loop p tail) = snd (parse_loop p buf).
Proof.
  induction buf as [buf IH] using (induction_ltof1 _ (@length byte)).
  unfold ltof in IH.
  rewrite (parse_loop_unfold p buf), parse_step_at_sync.
  destruct (index SYNC buf) as [i|] eqn:H.
  - destruct (index_sync_split _ H) as (pre & post & E & _ & Hpre & E').
    rewrite E'.
    destruct (step_at_sync (SYNC :: post)) as [[f r]|s'] eqn:Hs.
    + destruct (step_at_sync_is_frame _ Hs) as [Hf Efr].
      apply step_at_sync_shrinks in Hs.
      destruct (IH r) as (segs & tail & Er & Hc & Hfr & Ht & Hrest).
      { rewrite E, length_app. lia. }
      exists (Noise pre :: Frame f :: segs), tail.
      split; [|split; [|split; [|split]]].
      * unfold stream_bytes in *. cbn [map concat segment_bytes].
        rewrite E, Efr, Er, <- !app_assoc. reflexivity.
      * repeat constructor; assumption.
      * cbn [frames_of fst]. now rewrite Hfr.
      * exact Ht.
      * exact Hrest.
    + exists [], buf. unfold stream_bytes. cbn [map concat app frames_of].
      rewrite (parse_loop_unfold p buf), parse_step_at_sync, H, E', Hs.
      repeat split; constructor.
  - exists [], buf. unfold stream_bytes. cbn [map concat app frames_of].
    rewrite (parse_loop_unfold p buf), parse_step_at_sync, H.
    repeat split; constructor.
Qed.

(** *** A call on no data *)

Lemma on_no_sync_idem p buf :
  on_no_sync p (on_no_sync p buf) = on_no_sync p buf.
Proof.
  destruct p as [|cap]; simpl; [reflexivity|].
  destruct (cap <? length buf)%nat eqn:E; simpl.
  - now destruct (cap <? 0)%nat.
  - now rewrite E.
Qed.

Lemma parse_loop_settled p buf :
  parse_loop p (snd (parse_loop p buf)) = ([], snd (parse_loop p buf)).
Proof.
  induction buf as [buf IH] using (induction_ltof1 _ (@length byte)).
  unfold ltof in IH.
  rewrite (parse_loop_unfold p buf), parse_step_at_sync.
  destruct (index SYNC buf) as [i|] eqn:H.
  - destruct (index_sync_split _ H) as (pre & post & E & _ & _ & E').
    rewrite E'.
    destruct (step_at_sync (SYNC :: post)) as [[f r]|s'] eqn:Hs.
    + cbn [snd]. apply IH. apply step_at_sync_shrinks in Hs.
      rewrite E, length_app. lia.
    + pose proof (step_at_sync_wait _ Hs) as ->. cbn [snd].
      rewrite parse_loop_unfold, parse_step_at_sync, index_sync_head.
      cbn [skipn]. now rewrite Hs.
  - cbn [snd].
    assert (Hno : index SYNC (on_no_sync p buf) = None).
    { destruct p as [|cap]; simpl; [reflexivity|].
      now destruct (cap <? length buf)%nat. }
    rewrite parse_loop_unfold, parse_step_at_sync, Hno.
    now rewrite on_no_sync_idem.
Qed.

(** What the loop retains: no sync byte at all, or a buffer that starts
    at the sync byte and on which the loop body waits for more bytes. *)
Lemma parse_loop_waits p buf :
  index SYNC (snd (parse_loop p buf)) = None
  \/ exists t, snd (parse_loop p buf) = SYNC :: t
               /\ step_at_sync (SYNC :: t) = inr (SYNC :: t).
Proof.
  induction buf as [buf IH] using (induction_ltof1 _ (@length byte)).
  unfold ltof in IH.
  rewrite (parse_loop_unfold p buf), parse_step_at_sync.
  destruct (index SYNC buf) as [i|] eqn:H.
  - destruct (index_sync_split _ H) as (pre & post & E & _ & _ & E').
    rewrite E'.
    destruct (step_at_sync (SYNC :: post)) as [[f r]|s'] eqn:Hs.
    + cbn [snd]. apply IH. apply step_at_sync_shrinks in Hs.
      rewrite E, length_app. lia.
    + pose proof (step_at_sync_wait _ Hs) as ->. cbn [snd].
      right. now exists post.
  - cbn [snd]. left.
    destruct p as [|cap]; simpl; [reflexivity|].
    now destruct (cap <? length buf)%nat.
Qed.

(** A buffer on which the loop body waits does not begin with a whole
    frame. *)
Lemma waiting_holds_no_frame t f later :
  step_at_sync (SYNC :: t) = inr (SYNC :: t) ->
  SYNC :: t = f ++ later -> is_frame f = false.
Proof.
  intros Hw E.
  destruct f as [|s [|h0 [|h1 body]]]; try reflexivity.
  cbn [app] in E. injection E as <- ->.
  unfold step_at_sync in Hw. cbn [is_frame].
  rewrite Z.eqb_refl. cbn [andb]. apply Nat.eqb_neq.
  remember (frame_len (nth 1 (SYNC :: h0 :: h1 :: body ++ later) 0)
                      (nth 2 (SYNC :: h0 :: h1 :: body ++ later) 0))
    as flen eqn:Eflen.
  cbn [nth] in Eflen. unfold frame_len in Eflen.
  assert (Hlen : length (SYNC :: h0 :: h1 :: body ++ later)
                 = (3 + (length body + length later))%nat)
    by (cbn [length]; rewrite length_app; lia).
  rewrite Hlen in Hw.
  replace (3 + (length body + length later) <? 3)%nat with false in Hw
    by (symmetry; apply Nat.ltb_ge; lia).
  destruct (3 + (length body + length later) <? flen)%nat eqn:Hfl;
    [|discriminate].
  apply Nat.ltb_lt in Hfl. lia.
Qed.

(** X3.  A complete frame is never left waiting in the buffer.  What a
    call of the decoder retains holds no sync byte, or starts at its sync
    byte; no stretch of bytes at its start is a whole frame (sync byte,
    two header bytes, and the declared length plus three bytes behind
    them); and so a further call with an empty chunk cuts out nothing and
    leaves the buffer as it is. *)
Theorem no_frame_left_waiting (p : garbage_policy) (buf data : bytes) :
  let rest := snd (feed p buf data) in
  (index SYNC rest = None \/ exists t, rest = SYNC :: t)
  /\ (forall f later, rest = f ++ later -> is_frame f = false)
  /\ feed p rest [] = ([], rest).
Proof.
  cbv zeta. unfold feed. rewrite app_nil_r.
  split; [|split; [|apply parse_loop_settled]].
  - destruct (parse_loop_waits p (buf ++ data)) as [Hno|(t & E & _)];
      [now left | right; now exists t].
  - intros f later E.
    destruct (parse_loop_waits p (buf ++ data)) as [Hno|(t & Et & Hw)].
    + destruct f as [|s [|h0 [|h1 body]]]; try reflexivity.
      cbn [is_frame]. destruct (Z.eqb_spec s SYNC) as [->|]; [|reflexivity].
      rewrite E in Hno. cbn [app] in Hno.
      rewrite index_sync_head in Hno. discriminate.
    + rewrite Et in E. exact (@waiting_holds_no_frame t f later Hw E).
Qed.

(** A whole frame fed alone is cut out; nothing of it is retained. *)
Lemma whole_frame_not_retained :
  feed ClearAlways [] [0xD3; 0; 0; 1; 2; 3] = ([[0xD3; 0; 0; 1; 2; 3]], [])
  /\ is_frame [0xD3; 0; 0; 1; 2; 3] = true.
Proof. vm_compute. split; reflexivity. Qed.

(** *** The message type *)

Definition all_bytes : bytes := map Z.of_nat (seq 0 256).

Lemma in_all_bytes b : is_byte b -> In b all_bytes.
Proof.
  intros [H0 H1]. unfold all_bytes.
  rewrite <- (Z2Nat.id b) by assumption.
  apply in_map, in_seq. lia.
Qed.

Lemma msg_type_table :
  forallb (fun a =>
    forallb (fun b =>
      Z.land (Z.lor (Z.shiftl a 4) (Z.shiftr b 4)) 0x0FFF
      =? 16 * a + b / 16) all_bytes) all_bytes = true.
Proof. vm_compute. reflexivity. Qed.

(** X4.  [parse_rtcm3_message_type] returns -1 exactly for a payload shorter
    than two bytes; otherwise the twelve-bit number 16 * p0 + p1 / 16,
    between 0 and 4095. *)
Theorem message_type_value (payload : bytes) :
  Forall is_byte payload ->
  let ty := parse_rtcm3_message_type payload in
  ((length payload < 2)%nat -> ty = -1)
  /\ ((2 <= length payload)%nat ->
      ty = 16 * nth 0 payload 0 + nth 1 payload 0 / 16
      /\ 0 <= ty < 4096).
Proof.
  intros Hb ty. subst ty. unfold parse_rtcm3_message_type, msg_type_bits.
  split; intros Hlen.
  - apply Nat.ltb_lt in Hlen. now rewrite Hlen.
  - replace (length payload <? 2)%nat with false
      by (symmetry; apply Nat.ltb_ge; exact Hlen).
    rewrite Forall_forall in Hb.
    assert (H0 : is_byte (nth 0 payload 0)) by (apply Hb, nth_In; lia).
    assert (H1 : is_byte (nth 1 payload 0)) by (apply Hb, nth_In; lia).
    pose proof msg_type_table as T.
    rewrite forallb_forall in T.
    specialize (T _ (in_all_bytes H0)).
    rewrite forallb_forall in T.
    specialize (T _ (in_all_bytes H1)).
    apply Z.eqb_eq in T. rewrite T.
    split; [reflexivity|].
    unfold is_byte in H0, H1.
    pose proof (Z.div_pos (nth 1 payload 0) 16 ltac:(lia) ltac:(lia)).
    pose proof (Z.div_lt_upper_bound (nth 1 payload 0) 16 16
                  ltac:(lia) ltac:(lia)).
    lia.
Qed.

Lemma message_type_value_witness :
  parse_rtcm3_message_type [0x3E; 0xD0; 1; 2] = 16 * 0x3E + 0xD0 / 16
  /\ 0 <= parse_rtcm3_message_type [0x3E; 0xD0; 1; 2] < 4096.
Proof.
  apply (@message_type_value [0x3E; 0xD0; 1; 2]).
  - repeat constructor; unfold is_byte; lia.
  - simpl. lia.
Defined.

End RtcmMore.

(* ===================================================================== *)
(** * Further properties of the decoders' counters *)
(* ===================================================================== *)

Module CounterFacts.
Import Rtcm Stream RtcmFacts.

(** The test [validate_rtcm_data] puts before its accounting: at least
    six bytes, a payload of at least two, a positive type. *)
Definition accounted (frame : bytes) : bool :=
  (6 <=? length frame)%nat
  && (2 <=? length (frame_payload frame))%nat
  && (0 <? msg_type_bits (frame_payload frame)).

Lemma validate_frame_accounted t st frame :
  accounted frame = true ->
  validate_frame t st frame =
  {| rtcm_buffer := rtcm_buffer st;
     rtcm_valid_frames := rtcm_valid_frames st + 1;
     rtcm_msg_types :=
       set_add (msg_type_bits (frame_payload frame)) (rtcm_msg_types st);
     rtcm_last_received_time := Some t;
     rtcm_first_frame_time :=
       match rtcm_first_frame_time st with
       | None => Some t
       | Some t0 => Some t0
       end |}.
Proof.
  unfold accounted, validate_frame. intros H.
  apply andb_prop in H as [H H3]. apply andb_prop in H as [H1 H2].
  now rewrite H1, H2, H3.
Qed.

Lemma validate_frame_skipped t st frame :
  accounted frame = false -> validate_frame t st frame = st.
Proof.
  unfold accounted, validate_frame. intros H.
  destruct (6 <=? length frame)%nat; [|reflexivity].
  destruct (2 <=? length (frame_payload frame))%nat; [|reflexivity].
  destruct (0 <? msg_type_bits (frame_payload frame));
    [discriminate | reflexivity].
Qed.

Lemma fold_validate_counters t frames : forall st,
  let st' := fold_left (validate_frame t) frames st in
  let k := length (filter accounted frames) in
  rtcm_valid_frames st' = (rtcm_valid_frames st + k)%nat
  /\ (k = 0%nat -> st' = st)
  /\ ((0 < k)%nat ->
      rtcm_last_received_time st' = Some t
      /\ rtcm_first_frame_time st'
         = match rtcm_first_frame_time st with
           | None => Some t
           | Some t0 => Some t0
           end).
Proof.
  induction frames as [|f frames IH]; intros st; cbn [fold_left filter].
  - cbv zeta. cbn [length]. split; [lia|].
    split; [reflexivity | intros; lia].
  - destruct (accounted f) eqn:Ef.
    + specialize (IH (validate_frame t st f)). cbv zeta in IH |- *.
      destruct IH as (Hn & H0 & Hpos). cbn [length].
      rewrite (@validate_frame_accounted t st f Ef) in *.
      cbn [rtcm_valid_frames rtcm_last_received_time
           rtcm_first_frame_time] in *.
      split; [lia|]. split; [lia|]. intros _.
      destruct (length (filter accounted frames)) as [|k'] eqn:Ek.
      * rewrite (H0 eq_refl). cbn. split; reflexivity.
      * destruct (Hpos ltac:(lia)) as [Hl Hf]. split; [exact Hl|].
        rewrite Hf. now destruct (rtcm_first_frame_time st).
    + rewrite (@validate_frame_skipped t st f Ef). apply IH.
Qed.

(** X5.  [rtcm_valid_frames] grows by exactly the number of frames cut out in
    the call that pass the accounting test.  When there is none the call
    changes nothing but the buffer; when there is one the last-received
    time is the time of the call, and the first-frame time is set if it
    was not and never changes once set. *)
Theorem validate_rtcm_data_counts
  (t : timestamp) (st : rover_state) (data : bytes) :
  let r := feed (ClearAbove 1024) (rtcm_buffer st) data in
  let st' := validate_rtcm_data t st data in
  let k := length (filter accounted (fst r)) in
  rtcm_valid_frames st' = (rtcm_valid_frames st + k)%nat
  /\ (k = 0%nat -> st' = with_buffer st (snd r))
  /\ ((0 < k)%nat ->
      rtcm_last_received_time st' = Some t
      /\ rtcm_first_frame_time st'
         = match rtcm_first_frame_time st with
           | None => Some t
           | Some t0 => Some t0
           end).
Proof.
  intros r st' k. subst st'. unfold validate_rtcm_data. fold r.
  destruct (fold_validate_counters t (fst r) (with_buffer st (snd r)))
    as (Hn & H0 & Hpos).
  fold k in Hn, H0, Hpos. cbn [with_buffer rtcm_valid_frames
    rtcm_first_frame_time] in Hn, Hpos.
  split; [exact Hn|]. split; [exact H0 | exact Hpos].
Qed.

(** *** The set of message types *)

Lemma set_add_In x y s : In y (set_add x s) <-> y = x \/ In y s.
Proof.
  induction s as [|z s IH]; simpl.
  - intuition.
  - destruct (Z.eqb_spec z x) as [->|Hne]; simpl.
    + intuition.
    + rewrite IH. intuition.
Qed.

Lemma set_add_NoDup x s : NoDup s -> NoDup (set_add x s).
Proof.
  induction s as [|z s IH]; simpl; intros H.
  - repeat constructor. tauto.
  - destruct (Z.eqb_spec z x) as [->|Hne]; [assumption|].
    apply NoDup_cons_iff in H as [Hz Hs].
    constructor; [|auto].
    rewrite set_add_In. intros [->|Hin]; tauto.
Qed.

Lemma fold_validate_types t frames : forall st,
  let st' := fold_left (validate_frame t) frames st in
  (NoDup (rtcm_msg_types st) -> NoDup (rtcm_msg_types st'))
  /\ (forall ty, In ty (rtcm_msg_types st') <->
        In ty (rtcm_msg_types st)
        \/ exists f, In f frames /\ accounted f = true
                     /\ msg_type_bits (frame_payload f) = ty).
Proof.
  induction frames as [|f frames IH]; intros st; cbn [fold_left].
  - cbv zeta. split; [auto|]. intros ty. split; [auto|].
    intros [H|(f & [] & _)]. exact H.
  - specialize (IH (validate_frame t st f)). cbv zeta in IH |- *.
    destruct IH as [Hnd Hin].
    destruct (accounted f) eqn:Ef.
    + rewrite (@validate_frame_accounted t st f Ef) in *.
      cbn [rtcm_msg_types] in *. split.
      * intros H. now apply Hnd, set_add_NoDup.
      * intros ty. rewrite Hin, set_add_In. split.
        -- intros [[->|H]|(g & Hg & Hacc & Hty)].
           ++ right. exists f. split; [now left | auto].
           ++ now left.
           ++ right. exists g. split; [now right | auto].
        -- intros [H|(g & [->|Hg] & Hacc & Hty)].
           ++ left. now right.
           ++ left. left. now symmetry.
           ++ right. exists g. auto.
    + rewrite (@validate_frame_skipped t st f Ef) in *. split; [exact Hnd|].
      intros ty. rewrite Hin. split.
      * intros [H|(g & Hg & Hacc & Hty)]; [now left|].
        right. exists g. split; [now right | auto].
      * intros [H|(g & [->|Hg] & Hacc & Hty)]; [now left | congruence |].
        right. exists g. auto.
Qed.

(** X6.  [rtcm_msg_types] stays a set (no duplicates), and after a call it
    holds what it held before and the types of the frames accounted for
    in the call, nothing else; so it never holds 0 and never loses a
    type. *)
Theorem validate_rtcm_data_types
  (t : timestamp) (st : rover_state) (data : bytes) :
  let frames := fst (feed (ClearAbove 1024) (rtcm_buffer st) data) in
  let st' := validate_rtcm_data t st data in
  (NoDup (rtcm_msg_types st) -> NoDup (rtcm_msg_types st'))
  /\ (forall ty, In ty (rtcm_msg_types st') <->
        In ty (rtcm_msg_types st)
        \/ exists f, In f frames /\ accounted f = true
                     /\ msg_type_bits (frame_payload f) = ty).
Proof.
  intros frames st'. subst st'. unfold validate_rtcm_data.
  apply (fold_validate_types t frames
           (with_buffer st
              (snd (feed (ClearAbove 1024) (rtcm_buffer st) data)))).
Qed.

(** *** The per-type counters of [read_rtcm_stream] *)

(** The frame is counted under type [k]: it has that type, and the type
    is positive. *)
Definition counted_as (k : Z) (f : bytes) : bool :=
  (frame_type f =? k) && (0 <? k).

Lemma fold_count_frame frames k : forall counts,
  fold_left count_frame frames counts k
  = (counts k
     + length (filter (counted_as k)
                      frames))%nat.
Proof.
  induction frames as [|f frames IH]; intros counts; cbn [fold_left filter].
  - cbn [length]. lia.
  - rewrite IH. unfold count_frame. fold (frame_type f).
    unfold counted_as at 2.
    destruct (Z.eqb_spec (frame_type f) k) as [E|Hne]; cbn [andb].
    + rewrite E. destruct (0 <? k) eqn:Hk.
      * unfold counter_incr. rewrite Z.eqb_refl. cbn [length]. lia.
      * lia.
    + destruct (0 <? frame_type f); [|lia].
      unfold counter_incr.
      destruct (Z.eqb_spec k (frame_type f)); [congruence | lia].
Qed.

(** X7.  After a chunk, the counter of every type has grown by the number of
    frames of that type cut out of the chunk, for a positive type, and not
    at all for a type that is not positive; [total_bytes] has grown by the
    length of the chunk whatever it holds. *)
Theorem read_rtcm_stream_chunk_counts
  (st : stream_state) (chunk : bytes) (k : Z) :
  let frames := fst (feed ClearAlways (buffer st) chunk) in
  let st' := read_rtcm_stream_chunk st chunk in
  msg_counts st' k
  = (msg_counts st k
     + length (filter (counted_as k)
                      frames))%nat
  /\ (k <= 0 -> msg_counts st' k = msg_counts st k)
  /\ total_bytes st' = (total_bytes st + length chunk)%nat.
Proof.
  intros frames st'. subst st'. unfold read_rtcm_stream_chunk.
  cbn [msg_counts total_bytes]. fold frames.
  rewrite fold_count_frame. split; [reflexivity|]. split; [|reflexivity].
  intros Hk.
  assert (E : filter (counted_as k) frames = []).
  { induction frames as [|f fs IHf]; [reflexivity|]. cbn [filter].
    unfold counted_as at 1.
    replace (0 <? k) with false by (symmetry; apply Z.ltb_ge; lia).
    rewrite andb_false_r. exact IHf. }
  rewrite E. cbn [length]. lia.
Qed.

Lemma read_rtcm_stream_chunk_counts_witness :
  msg_counts (read_rtcm_stream_chunk stream_init [0xD3; 0; 0; 1; 2; 3]) 0
  = msg_counts stream_init 0.
Proof.
  apply (@read_rtcm_stream_chunk_counts stream_init
           [0xD3; 0; 0; 1; 2; 3] 0).
  lia.
Defined.

End CounterFacts.

(* ===================================================================== *)
(** * The local server's reply *)
(* ===================================================================== *)

Unset Implicit Arguments.

Module Proxy.

(** [build_ntrip_response] of [ntrip_proxy.py]: the bytes of
    "ICY 200 OK" followed by two CRLF. *)
Definition build_ntrip_response : bytes :=
  of_string "ICY 200 OK" ++ CRLF ++ CRLF.

End Proxy.

(* ===================================================================== *)
(** * Further properties of the handshake *)
(* ===================================================================== *)

Module HandshakeMore.
Import Handshake HandshakeFacts.

(** *** Searching, continued *)

Lemma startswith_app pat s t :
  startswith pat s = true -> startswith pat (s ++ t) = true.
Proof.
  revert s. induction pat as [|p pat IH]; intros [|c s]; simpl;
    try discriminate; trivial.
  intros H. apply andb_prop in H as [H1 H2]. rewrite H1. simpl. auto.
Qed.

Lemma startswith_app_inv pat s t :
  startswith pat (s ++ t) = true -> (length pat <= length s)%nat ->
  startswith pat s = true.
Proof.
  revert s. induction pat as [|p pat IH]; intros [|c s]; simpl;
    trivial; try lia.
  intros H Hlen. apply andb_prop in H as [H1 H2]. rewrite H1. simpl.
  apply IH; [exact H2 | lia].
Qed.

Lemma occurs_at_app pat s t k :
  pat <> [] -> occurs_at pat s k -> occurs_at pat (s ++ t) k.
Proof.
  intros Hpat H. pose proof (occurs_at_inside Hpat H) as Hin.
  unfold occurs_at in *.
  rewrite skipn_app_short by lia. now apply startswith_app.
Qed.

Lemma occurs_at_app_inv pat s t k :
  occurs_at pat (s ++ t) k -> (k + length pat <= length s)%nat ->
  occurs_at pat s k.
Proof.
  unfold occurs_at. intros H Hlen.
  rewrite skipn_app_short in H by lia.
  apply (startswith_app_inv _ _ _ H). rewrite length_skipn. lia.
Qed.

Lemma find_some_first pat s i :
  pat <> [] -> (find pat s = Some i <-> first_at pat s 0 i).
Proof.
  intros Hpat. pose proof (find_first Hpat s) as H.
  destruct (find pat s) as [j|]; split.
  - now intros [= <-].
  - intros Hi. f_equal. eapply first_at_unique; eauto.
  - discriminate.
  - intros Hi. now apply first_at_present in Hi.
Qed.

Lemma find_app_present pat s t i :
  pat <> [] -> find pat s = Some i -> find pat (s ++ t) = Some i.
Proof.
  intros Hpat H. apply (find_some_first _ _ _ Hpat) in H.
  apply (find_some_first _ _ _ Hpat).
  destruct H as (H0 & Hi & Hmin). split; [lia|]. split.
  - now apply occurs_at_app.
  - intros k Hk Hocc. apply (Hmin k Hk).
    apply (occurs_at_app_inv _ _ _ _ Hocc).
    pose proof (occurs_at_inside Hpat Hi). lia.
Qed.

Lemma contains_occurs pat s :
  pat <> [] -> (contains pat s = true <-> exists k, occurs_at pat s k).
Proof.
  intros Hpat. unfold contains. pose proof (find_first Hpat s) as H.
  destruct (find pat s) as [i|]; split; try discriminate; trivial.
  - intros _. exists i. apply H.
  - intros [k Hk]. exfalso. apply (H k); [lia | exact Hk].
Qed.

(** The part before the first separator does not hold the separator. *)
Lemma split_head_clean sep s :
  sep <> [] -> contains sep (split_head sep s) = false.
Proof.
  intros Hsep. unfold split_head.
  pose proof (find_first Hsep s) as H.
  destruct (contains sep match find sep s with
                         | Some i => firstn i s
                         | None => s
                         end) eqn:E; [|reflexivity].
  apply (contains_occurs _ _ Hsep) in E as [k Hk].
  destruct (find sep s) as [i|].
  - pose proof (occurs_at_inside Hsep Hk) as Hin.
    rewrite length_firstn in Hin.
    assert (1 <= length sep)%nat
      by (destruct sep; [contradiction | simpl; lia]).
    destruct H as (_ & _ & Hmin). exfalso. apply (Hmin k); [lia|].
    rewrite <- (firstn_skipn i s). now apply occurs_at_app.
  - exfalso. apply (H k); [lia | exact Hk].
Qed.

Lemma split_head_prefix sep s : exists rest, s = split_head sep s ++ rest.
Proof.
  unfold split_head. destruct (find sep s) as [i|].
  - exists (skipn i s). now rewrite firstn_skipn.
  - exists []. now rewrite app_nil_r.
Qed.

(** *** The status line *)

Lemma status_line_of_prefix text : exists rest,
  text = status_line_of text ++ rest.
Proof.
  unfold status_line_of.
  destruct (split_head_prefix CRLF text) as [r1 E1].
  destruct (contains [LF] (split_head CRLF text)
            && negb (contains CRLF (split_head CRLF text))).
  - destruct (split_head_prefix [LF] (split_head CRLF text)) as [r2 E2].
    exists (r2 ++ r1). rewrite app_assoc, <- E2. exact E1.
  - now exists r1.
Qed.

(** X8.  The status line a response is judged by, and which the
    unexpected-response error carries, is a single line: it holds no line
    feed, and the response begins with it. *)
Theorem status_line_is_one_line (header : bytes) :
  contains [LF] (response_status_line header) = false
  /\ exists rest, header = response_status_line header ++ rest.
Proof.
  unfold response_status_line.
  destruct (locate_split header) as [e|err].
  - split.
    + unfold status_line_of.
      rewrite (split_head_clean CRLF (firstn e header))
        by discriminate.
      rewrite andb_true_r.
      destruct (contains [LF] (split_head CRLF (firstn e header))) eqn:E.
      * apply split_head_clean. discriminate.
      * exact E.
    + destruct (status_line_of_prefix (firstn e header)) as [r E].
      exists (r ++ skipn e header).
      rewrite app_assoc, <- E. now rewrite firstn_skipn.
  - split; [reflexivity|]. now exists header.
Qed.

(** *** What [check_response_header] can answer *)

(** X9.  [check_response_header] never fails on an index; it returns exactly
    when the status line is a success line, and then header text and
    payload are the two parts of the buffer; every error it raises is one
    of the four [ConnectionError]s, the last of them carrying the status
    line. *)
Theorem check_response_header_outcome (header : bytes) :
  match check_response_header header with
  | Return (text, payload) =>
      is_success (response_status_line header) = true
      /\ text ++ payload = header
  | Raise e =>
      is_success (response_status_line header) = false
      /\ e <> IndexError
      /\ (forall sl, e = UnexpectedResponse sl ->
            sl = response_status_line header)
  end.
Proof.
  destruct (check_response_header_unfold header)
    as (e & _ & _ & _ & ->).
  unfold classify.
  destruct (is_success (response_status_line header)).
  - split; [reflexivity | apply firstn_skipn].
  - repeat match goal with
           | |- context [if ?c then _ else _] => destruct c
           end;
      (split; [reflexivity|]; split; [discriminate|]);
      intros sl H; try discriminate H. now injection H as <-.
Qed.

End HandshakeMore.

Module HandshakeStream.
Import Handshake HandshakeFacts HandshakeMore.

(** *** The bytes a socket still holds *)

Definition event_bytes (e : recv_event) : bytes :=
  match e with
  | Silence => []
  | Segment s => s
  end.

(** All the bytes the caster delivers, in order. *)
Definition bytes_of (pending : list recv_event) : bytes :=
  concat (map event_bytes pending).

(** A stretch of at least one byte. *)
Definition is_data (e : recv_event) : bool :=
  match e with
  | Segment (_ :: _) => true
  | _ => false
  end.

Lemma recv_conserves bufsize pending r pending' :
  recv bufsize pending = (r, pending') ->
  match r with
  | Some chunk => chunk ++ bytes_of pending'
  | None => bytes_of pending'
  end = bytes_of pending.
Proof.
  unfold recv, bytes_of. destruct pending as [|[|s] rest].
  - intros [= <- <-]. reflexivity.
  - intros [= <- <-]. reflexivity.
  - destruct (length s <=? bufsize)%nat; intros [= <- <-]; cbn.
    + reflexivity.
    + now rewrite app_assoc, firstn_skipn.
Qed.

Lemma read_header_step_conserves header pending :
  match read_header_step header pending with
  | Continue header' pending' | Break header' pending' =>
      header' ++ bytes_of pending' = header ++ bytes_of pending
  | TimedOut => True
  end.
Proof.
  unfold read_header_step.
  destruct (recv 1024 pending) as [[chunk|] pending'] eqn:E;
    apply recv_conserves in E.
  - destruct chunk as [|c chunk].
    + now rewrite <- E.
    + assert ((header ++ c :: chunk) ++ bytes_of pending'
              = header ++ bytes_of pending)
        by (now rewrite <- app_assoc, E).
      destruct (contains CRLFCRLF _); [assumption|].
      destruct (has_200 _ && _); assumption.
  - destruct (has_200 header); [now rewrite E | exact I].
Qed.

Lemma read_header_conserves header pending :
  forall header' pending',
    read_header header pending = Some (header', pending') ->
    header' ++ bytes_of pending' = header ++ bytes_of pending.
Proof.
  funelim (read_header header pending); intros h' p' Hr.
  - now injection Hr as <- <-.
  - match goal with IH : forall _ _, read_header _ _ = _ -> _ |- _ =>
      rewrite (IH _ _ Hr) end.
    pose proof (read_header_step_conserves header pending) as Hc.
    now rewrite Hstep in Hc.
  - injection Hr as <- <-.
    pose proof (read_header_step_conserves header pending) as Hc.
    match goal with E : read_header_step _ _ = Break _ _ |- _ =>
      now rewrite E in Hc end.
  - discriminate.
Qed.

(** X10.  No byte is lost by the handshake: the header text, the payload handed
    on with it, and what the socket still holds are, in this order, the
    bytes the caster sent. *)
Theorem handshake_conserves
  (pending rest : list recv_event) (header text payload : bytes) :
  connect_ntrip pending = Some (header, rest) ->
  check_response_header header = Return (text, payload) ->
  text ++ payload ++ bytes_of rest = bytes_of pending.
Proof.
  intros Hc Hh. unfold connect_ntrip in Hc.
  apply read_header_conserves in Hc. cbn [app] in Hc. rewrite <- Hc.
  destruct (check_response_header_unfold header)
    as (e & _ & _ & _ & Hu).
  rewrite Hu in Hh. apply classify_return in Hh as [_ [= -> ->]].
  now rewrite app_assoc, firstn_skipn.
Qed.

Lemma handshake_conserves_witness :
  (of_string "ICY 200 OK" ++ CRLFCRLF) ++ [0xD3; 0] ++ [0; 1; 2; 3]
  = bytes_of [Segment (of_string "ICY 200 OK" ++ CRLFCRLF ++ [0xD3; 0]);
              Silence; Segment [0; 1; 2; 3]].
Proof.
  apply (handshake_conserves
           [Segment (of_string "ICY 200 OK" ++ CRLFCRLF ++ [0xD3; 0]);
            Silence; Segment [0; 1; 2; 3]]
           [Silence; Segment [0; 1; 2; 3]]
           (of_string "ICY 200 OK" ++ CRLFCRLF ++ [0xD3; 0])
           (of_string "ICY 200 OK" ++ CRLFCRLF) [0xD3; 0]);
    reflexivity.
Defined.

(** *** The time-out error *)

(** Drops the equations between inspected values that [funelim] leaves
    behind. *)
Ltac clear_inspected :=
  repeat match goal with
         | H : sigmaI _ _ _ = sigmaI _ _ _ |- _ => clear H
         end.

Lemma read_header_timeout header pending :
  read_header header pending = None ->
  exists before after,
    pending = before ++ Silence :: after
    /\ ~ In Silence before
    /\ has_200 (header ++ bytes_of before) = false.
Proof.
  funelim (read_header header pending); intros Hr; try discriminate;
    clear_inspected.
  - match goal with IH : read_header _ _ = None -> _ |- _ =>
      destruct (IH Hr) as (before & after & Ep & Hno & H200) end.
    clear Hr. unfold read_header_step, recv in Hstep.
    destruct pending as [|[|s] rest].
    + discriminate.
    + destruct (has_200 header); discriminate.
    + destruct (length s <=? 1024)%nat.
      * destruct s as [|c s]; [discriminate|].
        destruct (contains CRLFCRLF _); [discriminate|].
        destruct (has_200 _ && _); [discriminate|].
        injection Hstep as <- <-.
        exists (Segment (c :: s) :: before), after.
        split; [now rewrite Ep|]. split.
        -- intros [Hs|Hs]; [discriminate | contradiction].
        -- unfold bytes_of in *. cbn [map concat event_bytes].
           now rewrite app_assoc.
      * destruct (firstn 1024 s) as [|c chunk] eqn:Ef; [discriminate|].
        destruct (contains CRLFCRLF _); [discriminate|].
        destruct (has_200 _ && _); [discriminate|].
        injection Hstep as <- <-.
        destruct before as [|e before]; [discriminate|].
        injection Ep as <- ->.
        exists (Segment s :: before), after.
        split; [reflexivity|]. split.
        -- intros [Hs|Hs]; [discriminate|]. apply Hno. now right.
        -- unfold bytes_of in *. cbn [map concat event_bytes] in *.
           rewrite <- H200. f_equal.
           rewrite <- Ef, <- (app_assoc header). f_equal.
           now rewrite app_assoc, firstn_skipn.
  - match goal with E : read_header_step _ _ = TimedOut |- _ =>
      rename E into Hstep end.
    unfold read_header_step, recv in Hstep.
    destruct pending as [|[|s] rest].
    + discriminate.
    + destruct (has_200 header) eqn:H200; [discriminate|].
      exists [], rest. split; [reflexivity|]. split; [tauto|].
      unfold bytes_of. cbn. now rewrite app_nil_r.
    + destruct (length s <=? 1024)%nat.
      * destruct s as [|c s]; [discriminate|].
        destruct (contains CRLFCRLF _); [discriminate|].
        destruct (has_200 _ && _); discriminate.
      * destruct (firstn 1024 s) as [|c chunk]; [discriminate|].
        destruct (contains CRLFCRLF _); [discriminate|].
        destruct (has_200 _ && _); discriminate.
Qed.

(** X11.  The time-out error is raised only after a real time-out: the caster
    fell silent, and nothing it had sent until then holds a success token
    ("ICY 200" or " 200 "). *)
Theorem timeout_only_after_silence (pending : list recv_event) :
  connect_ntrip pending = None ->
  exists before after,
    pending = before ++ Silence :: after
    /\ ~ In Silence before
    /\ has_200 (bytes_of before) = false.
Proof.
  intros H. apply read_header_timeout in H. exact H.
Qed.

Lemma timeout_only_after_silence_witness :
  exists before after,
    [Segment (of_string "HTTP/1.1 "); Silence] = before ++ Silence :: after
    /\ ~ In Silence before
    /\ has_200 (bytes_of before) = false.
Proof.
  apply (timeout_only_after_silence
           [Segment (of_string "HTTP/1.1 "); Silence]).
  reflexivity.
Defined.

End HandshakeStream.

Module HandshakeEndToEnd.
Import Handshake HandshakeFacts HandshakeMore HandshakeStream.

Lemma app_split_at {A : Type} (a b c d : list A) :
  a ++ b = c ++ d -> (length c <= length a)%nat ->
  a = c ++ skipn (length c) a /\ d = skipn (length c) a ++ b.
Proof.
  intros E Hlen.
  assert (Hc : firstn (length c) a = c).
  { rewrite <- (firstn_app_short a b) by exact Hlen.
    rewrite E, firstn_app, firstn_all, Nat.sub_diag. cbn.
    apply app_nil_r. }
  split.
  - rewrite <- Hc at 1. symmetry. apply firstn_skipn.
  - rewrite <- (skipn_app_short a b) by exact Hlen.
    rewrite E, skipn_app, skipn_all, Nat.sub_diag. reflexivity.
Qed.

Lemma read_header_unfold header pending :
  read_header header pending =
  if (length header <? max_header)%nat then
    match read_header_step header pending with
    | Continue header' pending' => read_header header' pending'
    | Break header' pending' => Some (header', pending')
    | TimedOut => None
    end
  else Some (header, pending).
Proof.
  funelim (read_header header pending); clear_inspected;
    repeat match goal with
           | E : (_ <? _)%nat = _ |- _ => rewrite E; clear E
           | E : read_header_step _ _ = _ |- _ => rewrite E; clear E
           end; reflexivity.
Qed.

(** What one pass of the read loop does when the caster only ever
    delivers data. *)
Lemma data_step header pending :
  forallb is_data pending = true ->
  (pending = [] /\ read_header_step header pending = Break header [])
  \/ exists chunk pending',
       chunk <> []
       /\ forallb is_data pending' = true
       /\ chunk ++ bytes_of pending' = bytes_of pending
       /\ read_header_step header pending
          = if contains CRLFCRLF (header ++ chunk)
            then Break (header ++ chunk) pending'
            else if has_200 (header ++ chunk)
                    && (128 <? length (header ++ chunk))%nat
                 then Break (header ++ chunk) pending'
                 else Continue (header ++ chunk) pending'.
Proof.
  intros Hd. destruct pending as [|[|[|c s]] rest]; try discriminate.
  - left. split; reflexivity.
  - right. cbn [forallb is_data andb] in Hd.
    unfold read_header_step, recv.
    destruct (length (c :: s) <=? 1024)%nat eqn:E.
    + exists (c :: s), rest. repeat split; [discriminate | exact Hd].
    + apply Nat.leb_gt in E.
      destruct (firstn 1024 (c :: s)) as [|c' chunk] eqn:Ef.
      { apply (f_equal (@length byte)) in Ef.
        rewrite length_firstn in Ef. cbn [length] in Ef, E. lia. }
      destruct (skipn 1024 (c :: s)) as [|c'' more] eqn:Es.
      { apply (f_equal (@length byte)) in Es.
        rewrite length_skipn in Es. cbn [length] in Es, E. lia. }
      exists (c' :: chunk), (Segment (c'' :: more) :: rest).
      split; [discriminate|]. split; [exact Hd|]. split; [|reflexivity].
      unfold bytes_of. cbn [map concat event_bytes].
      rewrite app_assoc, <- Ef, <- Es. now rewrite firstn_skipn.
Qed.

Section MarkedResponse.

Variables hdr payload : bytes.
Hypothesis Hfirst : find CRLFCRLF (hdr ++ CRLFCRLF) = Some (length hdr).
Hypothesis Hshort : (length hdr <= 125)%nat.

Let response : bytes := (hdr ++ CRLFCRLF) ++ payload.

Lemma marker_found y :
  find CRLFCRLF ((hdr ++ CRLFCRLF) ++ y) = Some (length hdr).
Proof. apply find_app_present; [discriminate | exact Hfirst]. Qed.

Lemma unmarked_prefix_short h x :
  h ++ x = response -> contains CRLFCRLF h = false ->
  (length h < length hdr + 4)%nat.
Proof.
  intros E Hc.
  destruct (Nat.lt_ge_cases (length h) (length hdr + 4)) as [|Hge];
    [assumption|].
  destruct (app_split_at h x (hdr ++ CRLFCRLF) payload E) as [Eh _].
  { rewrite length_app. cbn. lia. }
  rewrite Eh in Hc. unfold contains in Hc.
  now rewrite marker_found in Hc.
Qed.

Lemma marked_prefix h x :
  h ++ x = response -> contains CRLFCRLF h = true ->
  exists y, h = (hdr ++ CRLFCRLF) ++ y /\ payload = y ++ x.
Proof.
  intros E Hc.
  assert (Hlen : (length hdr + 4 <= length h)%nat).
  { destruct (Nat.lt_ge_cases (length h) (length hdr + 4)) as [Hlt|];
      [|assumption].
    destruct (app_split_at (hdr ++ CRLFCRLF) payload h x (eq_sym E))
      as [Ea _].
    { rewrite length_app. cbn. lia. }
    unfold contains in Hc.
    destruct (find CRLFCRLF h) as [k|] eqn:Ek; [|discriminate].
    pose proof (find_app_present CRLFCRLF h
                  (skipn (length h) (hdr ++ CRLFCRLF)) k
                  ltac:(discriminate) Ek) as Ek'.
    rewrite <- Ea, Hfirst in Ek'. injection Ek' as <-.
    apply find_some_first in Ek as (_ & Hocc & _); [|discriminate].
    apply occurs_at_inside in Hocc; [|discriminate].
    cbn in Hocc. lia. }
  destruct (app_split_at h x (hdr ++ CRLFCRLF) payload E) as [Eh Ep].
  { rewrite length_app. cbn. lia. }
  eauto.
Qed.

(** Reading on until the blank line has come in. *)
Lemma read_until_marker : forall n header pending,
  length (bytes_of pending) = n ->
  forallb is_data pending = true ->
  header ++ bytes_of pending = response ->
  contains CRLFCRLF header = false ->
  exists header' rest,
    read_header header pending = Some (header', rest)
    /\ header' ++ bytes_of rest = response
    /\ contains CRLFCRLF header' = true.
Proof.
  induction n as [n IH] using lt_wf_ind.
  intros header pending Hn Hd E Hc.
  pose proof (unmarked_prefix_short header _ E Hc) as Hlen.
  rewrite read_header_unfold.
  replace (length header <? max_header)%nat with true
    by (symmetry; apply Nat.ltb_lt; pose proof max_header_value; lia).
  destruct (data_step header pending Hd)
    as [[-> _]|(chunk & pending' & Hne & Hd' & Eb & ->)].
  - exfalso. cbn in E. rewrite app_nil_r in E.
    apply (f_equal (@length byte)) in E.
    unfold response in E. rewrite !length_app in E. cbn in E. lia.
  - assert (E' : (header ++ chunk) ++ bytes_of pending' = response)
      by (now rewrite <- app_assoc, Eb).
    destruct (contains CRLFCRLF (header ++ chunk)) eqn:Hc'.
    + exists (header ++ chunk), pending'. auto.
    + pose proof (unmarked_prefix_short _ _ E' Hc') as Hlen'.
      replace (128 <? length (header ++ chunk))%nat with false
        by (symmetry; apply Nat.ltb_ge; lia).
      rewrite andb_false_r.
      apply (IH (length (bytes_of pending'))); trivial.
      rewrite <- Hn, <- Eb, length_app.
      destruct chunk; [contradiction | cbn; lia].
Qed.

End MarkedResponse.

(** X12.  A response with a short header (at most 125 bytes before the blank
    line, so that the blank line ends within the first 129 bytes), a
    success status line and some payload is sent by the caster in pieces of
    any sizes, none of them empty and with no time-out: the handshake
    reads up to the blank line, wherever the pieces cut it, accepts the
    response, takes exactly the header with its blank line as header text,
    and the payload is what it hands on followed by what the socket still
    holds. *)
Theorem handshake_any_segmentation
  (hdr payload : bytes) (pending : list recv_event) :
  find CRLFCRLF (hdr ++ CRLFCRLF) = Some (length hdr) ->
  (length hdr <= 125)%nat ->
  is_success (status_line_of (hdr ++ CRLFCRLF)) = true ->
  forallb is_data pending = true ->
  bytes_of pending = hdr ++ CRLFCRLF ++ payload ->
  exists header rest tail,
    connect_ntrip pending = Some (header, rest)
    /\ check_response_header header = Return (hdr ++ CRLFCRLF, tail)
    /\ tail ++ bytes_of rest = payload.
Proof.
  intros Hfirst Hshort Hok Hd Eb.
  rewrite app_assoc in Eb.
  destruct (read_until_marker hdr payload Hfirst Hshort
              (length (bytes_of pending)) [] pending eq_refl Hd Eb
              eq_refl)
    as (header & rest & Hr & E & Hc).
  destruct (marked_prefix hdr payload Hfirst Hshort header _ E Hc)
    as (y & Eh & Ep).
  exists header, rest, y. split; [exact Hr|]. split; [|now symmetry].
  unfold check_response_header, locate_split.
  rewrite Eh, (marker_found hdr Hfirst y).
  assert (El : (length hdr + 4 = length (hdr ++ CRLFCRLF) + 0)%nat)
    by (rewrite length_app; cbn; lia).
  rewrite El, firstn_app_2, skipn_app_exact. cbn [firstn skipn].
  rewrite app_nil_r. unfold classify. rewrite Hok.
  do 2 f_equal.
  destruct y as [|b y'].
  - now destruct (_ <? _)%nat.
  - match goal with |- (if ?c then _ else _) = _ =>
      replace c with true; [reflexivity|] end.
    symmetry. apply Nat.ltb_lt. rewrite !length_app. cbn. lia.
Qed.

(** The local server's reply followed by a frame, cut inside the blank
    line and inside the frame. *)
Lemma handshake_any_segmentation_witness :
  exists header rest tail,
    connect_ntrip
      [Segment (of_string "ICY 200 OK" ++ [CR; LF; CR]);
       Segment [LF; 0xD3; 0]; Segment [0; 1; 2; 3]]
    = Some (header, rest)
    /\ check_response_header header
       = Return (Proxy.build_ntrip_response, tail)
    /\ tail ++ bytes_of rest = [0xD3; 0; 0; 1; 2; 3].
Proof.
  apply (handshake_any_segmentation (of_string "ICY 200 OK")
           [0xD3; 0; 0; 1; 2; 3]
           [Segment (of_string "ICY 200 OK" ++ [CR; LF; CR]);
            Segment [LF; 0xD3; 0]; Segment [0; 1; 2; 3]]).
  - reflexivity.
  - cbn. lia.
  - reflexivity.
  - reflexivity.
  - reflexivity.
Defined.

(** *** The two variants of the split *)

Lemma nth_error_skipn_cons {A : Type} (l : list A) i b :
  nth_error l i = Some b -> skipn i l = b :: skipn (S i) l.
Proof.
  revert i. induction l as [|a l IH]; intros [|i] H; try discriminate.
  - cbn in *. congruence.
  - cbn [nth_error] in H. cbn [skipn]. rewrite (IH i H).
    destruct l; reflexivity.
Qed.

(** X13.  When both variants of the handshake accept a buffer they hand on the
    same payload, except where [check_response_header] cuts at a control
    byte: [ntrip_to_rover.connect_ntrip] has no such fallback and hands on
    nothing there. *)
Theorem variants_agree_on_payload (header payload text payload' : bytes) :
  NtripToRover.check_response header = Return payload ->
  check_response_header header = Return (text, payload') ->
  payload = payload'
  \/ (payload = []
      /\ find CRLFCRLF header = None
      /\ exists b rest, payload' = b :: rest /\ is_control b = true).
Proof.
  unfold NtripToRover.check_response, check_response_header, locate_split.
  destruct (contains (of_string "ICY 200") (split_head CRLF header)
            || contains (of_string " 200 ") (split_head CRLF header));
    [|repeat match goal with
             | |- context [if ?c then _ else _] => destruct c
             end; discriminate].
  destruct (find CRLFCRLF header) as [p|].
  { intros [= <-] H. apply classify_return in H as [_ [= _ <-]].
    now left. }
  set (status_end := match find CRLF header with
                     | Some s => Some s
                     | None => find [LF] header
                     end).
  destruct status_end as [s|].
  2:{ intros [= <-] H. apply classify_return in H as [_ [= _ <-]].
      now left. }
  destruct (find_from [211] header (s + 2)) as [d|].
  { intros [= <-] H. apply classify_return in H as [_ [= _ <-]].
    now left. }
  pose proof (@scan_control_spec header
                (Nat.min (length header) (s + 200) - (s + 2))
                (s + 2) ltac:(lia)) as Hc.
  destruct (scan_control header (s + 2)
              (Nat.min (length header) (s + 200) - (s + 2)))
    as [[i|]|e]; [| |contradiction].
  - intros [= <-] H. apply classify_return in H as [_ [= _ ->]].
    right. rewrite Nat.ltb_irrefl. split; [reflexivity|].
    split; [reflexivity|].
    destruct Hc as (Hr & (b & Hb & Hcb) & _).
    replace (i <? length header)%nat with true
      by (symmetry; apply Nat.ltb_lt; lia).
    exists b, (skipn (S i) header). split; [|exact Hcb].
    now apply nth_error_skipn_cons.
  - intros [= <-] H. apply classify_return in H as [_ [= _ <-]].
    now left.
Qed.

Lemma variants_agree_on_payload_witness :
  [0xD3; 0; 4] = [0xD3; 0; 4]
  \/ ([0xD3; 0; 4] = []
      /\ find CRLFCRLF (of_string "ICY 200 OK" ++ CRLF ++ [0xD3; 0; 4])
         = None
      /\ exists b rest, [0xD3; 0; 4] = b :: rest /\ is_control b = true).
Proof.
  apply (variants_agree_on_payload
           (of_string "ICY 200 OK" ++ CRLF ++ [0xD3; 0; 4])
           [0xD3; 0; 4] (of_string "ICY 200 OK" ++ CRLF) [0xD3; 0; 4]);
    reflexivity.
Defined.

End HandshakeEndToEnd.

(* ===================================================================== *)
(** * The proxy's forwarding loop *)
(* ===================================================================== *)

Module ProxyStream.
Import Net Relay.

(** The shared [stats] dictionary of [ntrip_proxy.main]; [last_activity]
    holds a [time.time()] reading. *)
Record stats : Type := {
  bytes_received : nat;
  bytes_sent : nat;
  last_activity : Z
}.

(** What one [ntrip_sock.recv(4096)] of [forward_ntrip_stream] comes back
    with: bytes (none: the caster closed the connection), together with
    the clock reading taken next; [socket.timeout]; another [OSError]. *)
Inductive recv_outcome : Type :=
| Received (chunk : bytes) (now : Z)
| TimedOut
| Failed.

(** The registry, the sockets and the counters the loop works on. *)
Record relay : Type := {
  clients : list client;
  sockets : net;
  counters : stats
}.

(** [client_manager.broadcast(data)] followed by
    [stats["bytes_sent"] += len(data)]. *)
Definition broadcast_and_count (r : relay) (payload : bytes) : relay :=
  let b := broadcast (clients r) (sockets r) payload in
  {| clients := fst b;
     sockets := snd b;
     counters :=
       {| bytes_received := bytes_received (counters r);
          bytes_sent := bytes_sent (counters r) + length payload;
          last_activity := last_activity (counters r) |} |}.

(** The [while True] loop of [forward_ntrip_stream] over the outcomes of
    its successive [recv] calls. *)
Fixpoint forward_loop (outcomes : list recv_outcome) (r : relay) : relay :=
  match outcomes with
  | [] => r
  | Received [] _ :: _ => r
  | Received chunk now :: later =>
      forward_loop later
        (broadcast_and_count
           {| clients := clients r;
              sockets := sockets r;
              counters :=
                {| bytes_received :=
                     bytes_received (counters r) + length chunk;
                   bytes_sent := bytes_sent (counters r);
                   last_activity := now |} |}
           chunk)
  | TimedOut :: later => forward_loop later r
  | Failed :: _ => r
  end.

(** [forward_ntrip_stream(ntrip_sock, initial_data, client_manager,
    stats)]. *)
Definition forward_ntrip_stream (initial_data : bytes)
  (outcomes : list recv_outcome) (r : relay) : relay :=
  forward_loop outcomes
    (match initial_data with
     | [] => r
     | _ :: _ => broadcast_and_count r initial_data
     end).

(** The bytes the loop takes from the caster before it stops. *)
Fixpoint taken (outcomes : list recv_outcome) : bytes :=
  match outcomes with
  | [] => []
  | Received [] _ :: _ => []
  | Received chunk _ :: later => chunk ++ taken later
  | TimedOut :: later => taken later
  | Failed :: _ => []
  end.

End ProxyStream.

(* ===================================================================== *)
(** * Further properties of the client registry *)
(* ===================================================================== *)

Module RelayMore.
Import Net Relay RelayFacts ProxyStream.

(** *** Removing from the registry *)

Lemma filter_all {A : Type} (f : A -> bool) (l : list A) :
  (forall x, In x l -> f x = true) -> filter f l = l.
Proof.
  induction l as [|x l IH]; intros H; [reflexivity|]. cbn [filter].
  rewrite (H x (or_introl eq_refl)). f_equal. apply IH.
  intros y Hy. apply H. now right.
Qed.

Lemma filter_filter_and {A : Type} (f g : A -> bool) (l : list A) :
  filter f (filter g l) = filter (fun x => g x && f x) l.
Proof.
  induction l as [|x l IH]; [reflexivity|]. cbn [filter].
  destruct (g x); cbn [filter andb]; [|exact IH].
  destruct (f x); now rewrite IH.
Qed.

Lemma existsb_filter {A : Type} (f g : A -> bool) (l : list A) :
  existsb f (filter g l) = existsb (fun x => g x && f x) l.
Proof.
  induction l as [|x l IH]; [reflexivity|]. cbn [filter existsb].
  destruct (g x); cbn [existsb andb orb]; now rewrite IH.
Qed.

Lemma list_remove_filter c : forall l,
  NoDup l ->
  list_remove c l = filter (fun y => negb (client_eqb y c)) l.
Proof.
  induction l as [|y l IH]; intros Hnd; [reflexivity|].
  apply NoDup_cons_iff in Hnd as [Hy Hnd]. cbn [list_remove filter].
  destruct (client_eqb y c) eqn:E; cbn [negb].
  - apply client_eqb_eq in E. subst y.
    symmetry. apply filter_all. intros x Hx.
    rewrite client_eqb_neq; [reflexivity|]. intros ->. contradiction.
  - f_equal. now apply IH.
Qed.

(** X14.  In a registry without duplicates [remove_client] takes out exactly
    the client named and keeps the others in order; removing a client that
    is not registered changes nothing (the [ValueError] is swallowed), so
    removing twice is removing once; and removing a client just added
    gives the registry back. *)
Theorem remove_client_idempotent (clients : list client) (c : client) :
  NoDup clients ->
  remove_client clients c
  = filter (fun y => negb (client_eqb y c)) clients
  /\ ~ In c (remove_client clients c)
  /\ remove_client (remove_client clients c) c = remove_client clients c
  /\ (~ In c clients ->
      remove_client clients c = clients
      /\ remove_client (add_client clients c) c = clients).
Proof.
  intros Hnd. unfold remove_client, add_client.
  assert (Hout : ~ In c (filter (fun y => negb (client_eqb y c)) clients)).
  { intros H. apply filter_In in H as [_ H].
    now rewrite client_eqb_refl in H. }
  assert (Hkeep : forall l, ~ In c l ->
            filter (fun y => negb (client_eqb y c)) l = l).
  { intros l Hl. apply filter_all. intros x Hx.
    rewrite client_eqb_neq; [reflexivity|]. intros ->. contradiction. }
  rewrite (list_remove_filter c clients Hnd).
  split; [reflexivity|]. split; [exact Hout|]. split.
  - rewrite list_remove_filter by (now apply NoDup_filter).
    now apply Hkeep.
  - intros Hc. split; [now apply Hkeep|].
    rewrite list_remove_filter.
    + rewrite filter_app, (Hkeep clients Hc). cbn [filter].
      rewrite client_eqb_refl. cbn. apply app_nil_r.
    + apply NoDup_app; [exact Hnd | repeat constructor; tauto |].
      intros x Hx [<-|[]]. contradiction.
Qed.

Lemma remove_client_idempotent_witness :
  remove_client (remove_client three_clients (0%nat, ("10.0.0.1"%string, 5001)))
                (0%nat, ("10.0.0.1"%string, 5001))
  = remove_client three_clients (0%nat, ("10.0.0.1"%string, 5001)).
Proof.
  refine (proj1 (proj2 (proj2
            (remove_client_idempotent three_clients
               (0%nat, ("10.0.0.1"%string, 5001)) _)))).
  repeat constructor; cbn; intuition discriminate.
Defined.

(** *** A broadcast, whoever fails *)

Lemma broadcast_send_fields payload : forall todo n disconnected s,
  closed (fst (broadcast_send todo payload n disconnected) s) = closed (n s)
  /\ broken (fst (broadcast_send todo payload n disconnected) s)
     = broken (n s).
Proof.
  induction todo as [|c todo IH]; intros n disconnected s;
    cbn [broadcast_send].
  - split; reflexivity.
  - unfold sendall. destruct (write_fails n (fst c)).
    + apply IH.
    + destruct (IH (update n (fst c)
                      {| sent := sent (n (fst c)) ++ payload;
                         closed := closed (n (fst c));
                         broken := broken (n (fst c)) |})
                   disconnected s) as [-> ->].
      unfold update. destruct (Nat.eqb_spec s (fst c)) as [->|_];
        split; reflexivity.
Qed.

Lemma broadcast_prune_spec : forall disconnected clients n,
  NoDup clients ->
  fst (broadcast_prune disconnected clients n)
  = filter (fun y => negb (existsb (client_eqb y) disconnected)) clients
  /\ forall s,
       sent (snd (broadcast_prune disconnected clients n) s) = sent (n s)
       /\ broken (snd (broadcast_prune disconnected clients n) s)
          = broken (n s)
       /\ closed (snd (broadcast_prune disconnected clients n) s)
          = closed (n s)
            || existsb (fun d : client => (s =? fst d)%nat) disconnected.
Proof.
  induction disconnected as [|d rest IH]; intros clients n Hnd;
    cbn [broadcast_prune existsb].
  - split.
    + symmetry. now apply filter_all.
    + intros s. now rewrite orb_false_r.
  - destruct (IH (list_remove d clients) (close n (fst d)))
      as [Hc Hn].
    { rewrite list_remove_filter by assumption. now apply NoDup_filter. }
    split.
    + rewrite Hc, list_remove_filter by assumption.
      rewrite filter_filter_and. apply filter_ext. intros y.
      now rewrite negb_orb.
    + intros s. destruct (Hn s) as (-> & -> & ->).
      unfold close, update. cbv beta.
      destruct (s =? fst d)%nat eqn:E;
        [apply Nat.eqb_eq in E; subst s|];
        cbn [sent closed broken orb];
        (split; [reflexivity|]; split; [reflexivity|]);
        destruct (closed (n _)); reflexivity.
Qed.

Lemma same_socket_same_client (l : list client) (a b : client) :
  NoDup (map fst l) -> In a l -> In b l -> fst a = fst b -> a = b.
Proof.
  induction l as [|y l IH]; intros Hnd Ha Hb E; [contradiction|].
  cbn [map] in Hnd. apply NoDup_cons_iff in Hnd as [Hy Hnd].
  destruct Ha as [->|Ha], Hb as [->|Hb]; trivial.
  - exfalso. apply Hy. rewrite E. now apply in_map.
  - exfalso. apply Hy. rewrite <- E. now apply in_map.
  - now apply IH.
Qed.

(** What a broadcast does, written for the caller. *)
Lemma broadcast_spec (clients : list client) (n : net) (payload : bytes) :
  NoDup (map fst clients) ->
  let clients' := fst (broadcast clients n payload) in
  let n' := snd (broadcast clients n payload) in
  clients'
  = filter (fun c => negb (write_fails n (fst c))) clients
  /\ (forall c, In c clients -> write_fails n (fst c) = false ->
        sent (n' (fst c)) = sent (n (fst c)) ++ payload
        /\ write_fails n' (fst c) = false)
  /\ (forall c, In c clients -> write_fails n (fst c) = true ->
        closed (n' (fst c)) = true)
  /\ (forall s, ~ In s (map fst clients) ->
        sent (n' s) = sent (n s)
        /\ closed (n' s) = closed (n s)
        /\ broken (n' s) = broken (n s)).
Proof.
  intros Hsock clients' n'. subst clients' n'. unfold broadcast.
  assert (Hnd : NoDup clients) by (eapply NoDup_map_inv; eauto).
  destruct (@broadcast_send_spec payload clients n [] Hsock)
    as (D & W & S1 & S2).
  cbn [app] in D.
  set (r := broadcast_send clients payload n []) in *.
  destruct (broadcast_prune_spec (snd r) clients (fst r) Hnd)
    as [Hc Hn].
  assert (Hclosed : forall s,
            closed (snd (broadcast_prune (snd r) clients (fst r)) s)
            = closed (n s)
              || existsb (fun c : client => write_fails n (fst c)
                                            && (s =? fst c)%nat) clients).
  { intros s. destruct (Hn s) as (_ & _ & ->).
    destruct (broadcast_send_fields payload clients n [] s) as [Hcl _].
    fold r in Hcl. rewrite Hcl. f_equal.
    transitivity
      (existsb (fun d : client => (s =? fst d)%nat)
         (filter (fun c => write_fails n (fst c)) clients)).
    - f_equal. exact D.
    - apply existsb_filter. }
  split; [|split; [|split]].
  - rewrite Hc. apply filter_ext_in. intros y Hy. f_equal.
    transitivity
      (existsb (client_eqb y)
         (filter (fun c => write_fails n (fst c)) clients)).
    { f_equal. exact D. }
    rewrite existsb_filter.
    destruct (write_fails n (fst y)) eqn:Fy.
    + apply existsb_exists. exists y. split; [exact Hy|].
      now rewrite Fy, client_eqb_refl.
    + destruct (existsb _ clients) eqn:E; [|reflexivity].
      apply existsb_exists in E as (d & _ & Hd).
      apply andb_prop in Hd as [Fd Ed].
      apply client_eqb_eq in Ed. subst d. congruence.
  - intros c Hin Hok.
    destruct (Hn (fst c)) as (Hs & Hb & _).
    split.
    + rewrite Hs. apply S1; [now apply in_map | exact Hok].
    + unfold write_fails at 1. rewrite Hclosed, Hb.
      destruct (broadcast_send_fields payload clients n [] (fst c))
        as [_ Hb'].
      fold r in Hb'. rewrite Hb'.
      replace (existsb _ clients) with false.
      * rewrite orb_false_r. exact Hok.
      * symmetry. destruct (existsb _ clients) eqn:E; [|reflexivity].
        apply existsb_exists in E as (d & Hd & Fd).
        apply andb_prop in Fd as [Fd Ed]. apply Nat.eqb_eq in Ed.
        rewrite (same_socket_same_client clients c d Hsock Hin Hd Ed)
          in Hok.
        congruence.
  - intros c Hin Hfail.
    rewrite Hclosed. apply orb_true_iff. right.
    apply existsb_exists. exists c. split; [exact Hin|].
    now rewrite Hfail, Nat.eqb_refl.
  - intros s Hs.
    destruct (Hn s) as (Hsent & Hb & _).
    destruct (broadcast_send_fields payload clients n [] s) as [Hc' Hb'].
    fold r in Hc', Hb'.
    split; [|split].
    + rewrite Hsent. apply S2. now left.
    + rewrite Hclosed.
      replace (existsb _ clients) with false; [apply orb_false_r|].
      symmetry. destruct (existsb _ clients) eqn:E; [|reflexivity].
      apply existsb_exists in E as (d & Hd & Fd).
      apply andb_prop in Fd as [_ Ed]. apply Nat.eqb_eq in Ed.
      exfalso. apply Hs. rewrite Ed. now apply in_map.
    + now rewrite Hb, Hb'.
Qed.

(** X15.  A broadcast over a registry of distinct sockets, whoever fails:
    the registry keeps, in order, exactly the clients whose write did not
    fail; each of them has received the data whole and can still be
    written to; each client whose write failed is out of the registry and
    its socket is closed; no socket outside the registry is touched. *)
Theorem broadcast_outcome
  (clients : list client) (n : net) (payload : bytes) :
  NoDup (map fst clients) ->
  let clients' := fst (broadcast clients n payload) in
  let n' := snd (broadcast clients n payload) in
  clients'
  = filter (fun c => negb (write_fails n (fst c))) clients
  /\ (forall c, In c clients -> write_fails n (fst c) = false ->
        sent (n' (fst c)) = sent (n (fst c)) ++ payload
        /\ write_fails n' (fst c) = false)
  /\ (forall c, In c clients -> write_fails n (fst c) = true ->
        closed (n' (fst c)) = true)
  /\ (forall s, ~ In s (map fst clients) ->
        sent (n' s) = sent (n s)
        /\ closed (n' s) = closed (n s)
        /\ broken (n' s) = broken (n s)).
Proof. exact (broadcast_spec clients n payload). Qed.

Lemma broadcast_outcome_witness :
  fst (broadcast three_clients second_broken [1; 2; 3])
  = filter (fun c => negb (write_fails second_broken (fst c)))
           three_clients.
Proof.
  refine (proj1 (broadcast_outcome three_clients second_broken
                   [1; 2; 3] _)).
  repeat constructor; cbn; intuition discriminate.
Defined.

(** *** The forwarding loop *)

Lemma NoDup_map_filter {A B : Type} (f : A -> B) (p : A -> bool) l :
  NoDup (map f l) -> NoDup (map f (filter p l)).
Proof.
  induction l as [|x l IH]; cbn [map filter]; intros H; [constructor|].
  apply NoDup_cons_iff in H as [Hx H].
  destruct (p x); [|auto]. cbn [map]. constructor; [|auto].
  intros Hin. apply Hx. apply in_map_iff in Hin as (y & E & Hy).
  apply filter_In in Hy as [Hy _]. rewrite <- E. now apply in_map.
Qed.

(** A client that is registered over distinct sockets and can be
    written to. *)
Definition served (r : relay) (c : client) : Prop :=
  NoDup (map fst (clients r)) /\ In c (clients r)
  /\ write_fails (sockets r) (fst c) = false.

Lemma broadcast_and_count_served r c payload :
  served r c ->
  served (broadcast_and_count r payload) c
  /\ sent (sockets (broadcast_and_count r payload) (fst c))
     = sent (sockets r (fst c)) ++ payload.
Proof.
  intros (Hnd & Hin & Hok).
  destruct (broadcast_spec (clients r) (sockets r) payload Hnd)
    as (Hc & Hgood & _ & _).
  destruct (Hgood c Hin Hok) as [Hs Hw].
  unfold served, broadcast_and_count. cbn [clients sockets].
  repeat split.
  - rewrite Hc. now apply NoDup_map_filter.
  - rewrite Hc. apply filter_In. split; [exact Hin|]. now rewrite Hok.
  - exact Hw.
  - exact Hs.
Qed.

Lemma forward_loop_served outcomes : forall r c,
  served r c ->
  served (forward_loop outcomes r) c
  /\ sent (sockets (forward_loop outcomes r) (fst c))
     = sent (sockets r (fst c)) ++ taken outcomes.
Proof.
  induction outcomes as [|[chunk now| |] later IH]; intros r c Hs;
    cbn [forward_loop taken].
  - now rewrite app_nil_r.
  - destruct chunk as [|b chunk]; [now rewrite app_nil_r|].
    set (r1 := {| clients := clients r; sockets := sockets r;
                  counters := _ |}).
    assert (Hs1 : served r1 c) by exact Hs.
    destruct (broadcast_and_count_served r1 c (b :: chunk) Hs1)
      as [Hs2 E2].
    destruct (IH _ c Hs2) as [Hs3 E3].
    split; [exact Hs3|]. rewrite E3, E2. cbn [sockets r1].
    now rewrite <- app_assoc.
  - now apply IH.
  - now rewrite app_nil_r.
Qed.

(** X16.  Order of forwarding.  A client registered when
    [forward_ntrip_stream] starts, over a registry of distinct sockets
    that no other thread changes meanwhile, and whose socket can be
    written to, is still registered when the loop ends, and has received
    the initial data and then every chunk the loop took from the caster,
    each whole and in the order received. *)
Theorem forward_ntrip_stream_in_order
  (initial_data : bytes) (outcomes : list recv_outcome)
  (r : relay) (c : client) :
  NoDup (map fst (clients r)) ->
  In c (clients r) ->
  write_fails (sockets r) (fst c) = false ->
  let r' := forward_ntrip_stream initial_data outcomes r in
  In c (clients r')
  /\ write_fails (sockets r') (fst c) = false
  /\ sent (sockets r' (fst c))
     = sent (sockets r (fst c)) ++ initial_data ++ taken outcomes.
Proof.
  intros Hnd Hin Hok r'. subst r'. unfold forward_ntrip_stream.
  assert (Hs : served r c) by (repeat split; assumption).
  destruct initial_data as [|b initial].
  - destruct (forward_loop_served outcomes r c Hs)
      as [(_ & Hin' & Hok') E].
    auto.
  - destruct (broadcast_and_count_served r c (b :: initial) Hs)
      as [Hs1 E1].
    destruct (forward_loop_served outcomes _ c Hs1)
      as [(_ & Hin' & Hok') E].
    split; [exact Hin'|]. split; [exact Hok'|].
    rewrite E, E1. now rewrite <- app_assoc.
Qed.

Lemma forward_ntrip_stream_in_order_witness :
  sent (sockets
          (forward_ntrip_stream [7]
             [Received [1; 2] 10; TimedOut; Received [3] 11;
              Received [] 12; Received [4] 13]
             {| clients := three_clients; sockets := second_broken;
                counters := {| bytes_received := 0; bytes_sent := 0;
                               last_activity := 0 |} |})
          0%nat)
  = [9] ++ [7] ++ [1; 2; 3].
Proof.
  refine (proj2 (proj2
            (forward_ntrip_stream_in_order [7]
               [Received [1; 2] 10; TimedOut; Received [3] 11;
                Received [] 12; Received [4] 13]
               {| clients := three_clients; sockets := second_broken;
                  counters := {| bytes_received := 0; bytes_sent := 0;
                                 last_activity := 0 |} |}
               (0%nat, ("10.0.0.1"%string, 5001)) _ _ _))).
  - repeat constructor; cbn; intuition discriminate.
  - now left.
  - reflexivity.
Defined.

Lemma forward_loop_counters outcomes : forall r,
  bytes_received (counters (forward_loop outcomes r))
  = (bytes_received (counters r) + length (taken outcomes))%nat
  /\ bytes_sent (counters (forward_loop outcomes r))
     = (bytes_sent (counters r) + length (taken outcomes))%nat.
Proof.
  induction outcomes as [|[chunk now| |] later IH]; intros r;
    cbn [forward_loop taken].
  - cbn [length]. lia.
  - destruct chunk as [|b chunk]; [cbn [length]; lia|].
    destruct (IH (broadcast_and_count
                    {| clients := clients r; sockets := sockets r;
                       counters :=
                         {| bytes_received :=
                              bytes_received (counters r)
                              + length (b :: chunk);
                            bytes_sent := bytes_sent (counters r);
                            last_activity := now |} |}
                    (b :: chunk))) as [-> ->].
    unfold broadcast_and_count.
    cbn [counters bytes_received bytes_sent]. rewrite length_app. lia.
  - apply IH.
  - cbn [length]. lia.
Qed.

(** X17.  The counters of the forwarding loop do not depend on the clients:
    [bytes_received] grows by the bytes taken from the caster, and
    [bytes_sent] by the initial data and the same bytes, also when the
    registry is empty or every write fails. *)
Theorem forward_ntrip_stream_counters
  (initial_data : bytes) (outcomes : list recv_outcome) (r : relay) :
  let r' := forward_ntrip_stream initial_data outcomes r in
  bytes_received (counters r')
  = (bytes_received (counters r) + length (taken outcomes))%nat
  /\ bytes_sent (counters r')
     = (bytes_sent (counters r) + length initial_data
        + length (taken outcomes))%nat.
Proof.
  intros r'. subst r'. unfold forward_ntrip_stream.
  destruct initial_data as [|b initial].
  - destruct (forward_loop_counters outcomes r) as [-> ->].
    cbn [length]. lia.
  - destruct (forward_loop_counters outcomes
                (broadcast_and_count r (b :: initial))) as [-> ->].
    unfold broadcast_and_count.
    cbn [counters bytes_received bytes_sent]. lia.
Qed.

End RelayMore.

(* ===================================================================== *)
(** * Further properties of the tunnel and of the TCP bridge *)
(* ===================================================================== *)

Module Bridge.
Import Net Tunnel.


(** [gps2_to_tcp_loop] of [rtk_bridge.py] (lines 143-175) and
    [mavlink_loop] of [uPrecise_forward.py] (lines 166-206) over the
    results of their successive [recv_match] calls.  The poll requests
    they send in between go to the autopilot and touch neither the bridge
    nor a socket. *)
Definition gps2_to_tcp_loop (dev : Z) (msgs : list (option serial_control))
  (b : TcpBridge) (n : net) : TcpBridge * net :=
  fold_left (fun st msg => gps2_to_tcp_recv dev msg (fst st) (snd st))
            msgs (b, n).

Definition mavlink_loop (dev : Z) (msgs : list (option serial_control))
  (b : TcpBridge) (n : net) : TcpBridge * net :=
  fold_left (fun st msg => mavlink_loop_recv dev msg (fst st) (snd st))
            msgs (b, n).

(** The bytes a received message announces for the device [dev]: its
    [count]-prefix, and nothing when there is no message, when it
    announces no byte or when it belongs to another device. *)
Definition announced (dev : Z) (msg : option serial_control) : bytes :=
  match msg with
  | Some m =>
      if (0 <? count m)%nat && (device m =? dev)
      then firstn (count m) (data m) else []
  | None => []
  end.

(** The same, an all-zero stretch counting as nothing. *)
Definition announced_nonzero (dev : Z) (msg : option serial_control)
  : bytes :=
  if is_all_zero (announced dev msg) then [] else announced dev msg.

End Bridge.

Module TunnelMore.
Import Net Tunnel TunnelFacts Bridge.

(** *** [is_all_zero] *)

(** [is_all_zero] answers true exactly when every byte is zero; so it
    does for the empty payload. *)
Theorem is_all_zero_iff (payload : bytes) :
  is_all_zero payload = true <-> Forall (fun b => b = 0) payload.
Proof.
  induction payload as [|b payload IH]; cbn [is_all_zero].
  - split; [constructor | reflexivity].
  - destruct (Z.eqb_spec b 0) as [->|Hne]; cbn [negb].
    + rewrite IH. split; [now constructor | now inversion 1].
    + split; [discriminate | inversion 1; contradiction].
Qed.

(** *** The messages of [send_serial_bytes] *)

Lemma send_serial_loop_each dev flg baud payload : forall n offset,
  (length payload - offset = n)%nat ->
  Forall (fun m =>
            device m = dev /\ flags m = flg /\ timeout m = 0
            /\ baudrate m = baud /\ (1 <= count m <= 70)%nat)
         (send_serial_loop dev flg baud payload offset).
Proof.
  induction n as [n IH] using lt_wf_ind. intros offset Hn.
  rewrite send_serial_loop_unfold.
  destruct (offset <? length payload)%nat eqn:Hlt; [|constructor].
  apply Nat.ltb_lt in Hlt.
  pose proof (chunk_count dev flg baud payload offset) as Hc.
  constructor.
  - rewrite Hc. repeat split; lia.
  - apply (IH (n - count (chunk_message dev flg baud payload offset))%nat);
      lia.
Qed.

(** X18.  Every message [send_serial_bytes] hands to the link carries at least
    one and at most 70 bytes, addresses the device and baud rate given,
    has the time-out field 0 and no flag but EXCLUSIVE, which it has
    exactly in exclusive mode: it is never a poll request. *)
Theorem send_serial_bytes_messages
  (dev : Z) (payload : bytes) (baud : Z) (exclusive : bool)
  (m : serial_control) :
  In m (send_serial_bytes dev payload baud exclusive) ->
  device m = dev /\ baudrate m = baud /\ timeout m = 0
  /\ flags m = (if exclusive then FLAG_EXCLUSIVE else 0)
  /\ Z.land (flags m) (Z.lor FLAG_RESPOND FLAG_MULTI) = 0
  /\ (1 <= count m <= 70)%nat.
Proof.
  intros Hin.
  pose proof (send_serial_loop_each dev
                (if exclusive then FLAG_EXCLUSIVE else 0) baud payload
                (length payload - 0) 0 eq_refl) as H.
  rewrite Forall_forall in H.
  destruct (H m Hin) as (Hd & Hf & Ht & Hb & Hc).
  repeat split; try assumption; try lia.
  rewrite Hf. now destruct exclusive.
Qed.

Definition short_message : serial_control :=
  chunk_message 3 FLAG_EXCLUSIVE 115200 [1; 2; 3] 0.

Lemma send_serial_bytes_messages_witness :
  (1 <= count short_message <= 70)%nat.
Proof.
  refine (proj2 (proj2 (proj2 (proj2 (proj2
            (send_serial_bytes_messages 3 [1; 2; 3] 115200 true
               short_message _)))))).
  now left.
Defined.

(** *** Sending in two calls *)

Lemma chunk_message_shift dev flg baud payload offset :
  chunk_message dev flg baud payload offset
  = chunk_message dev flg baud (skipn offset payload) 0.
Proof.
  unfold chunk_message. rewrite !slice_70. reflexivity.
Qed.

Lemma send_serial_loop_shift dev flg baud : forall n payload offset,
  (length payload - offset = n)%nat ->
  send_serial_loop dev flg baud payload offset
  = send_serial_loop dev flg baud (skipn offset payload) 0.
Proof.
  induction n as [n IH] using lt_wf_ind. intros payload offset Hn.
  rewrite (send_serial_loop_unfold dev flg baud payload offset).
  rewrite (send_serial_loop_unfold dev flg baud (skipn offset payload) 0).
  rewrite length_skipn.
  destruct (offset <? length payload)%nat eqn:Hlt.
  - apply Nat.ltb_lt in Hlt.
    replace (0 <? length payload - offset)%nat with true
      by (symmetry; apply Nat.ltb_lt; lia).
    rewrite <- chunk_message_shift.
    pose proof (chunk_count dev flg baud payload offset) as Hc.
    set (c := count (chunk_message dev flg baud payload offset)) in *.
    f_equal.
    rewrite (IH (n - c)%nat ltac:(lia) payload (offset + c)%nat ltac:(lia)).
    rewrite (IH (n - c)%nat ltac:(lia) (skipn offset payload) (0 + c)%nat)
      by (rewrite length_skipn; lia).
    rewrite skipn_skipn. f_equal. f_equal. lia.
  - apply Nat.ltb_ge in Hlt.
    replace (0 <? length payload - offset)%nat with false
      by (symmetry; apply Nat.ltb_ge; lia).
    reflexivity.
Qed.

Lemma send_serial_loop_app dev flg baud later : forall n payload,
  length payload = (70 * n)%nat ->
  send_serial_loop dev flg baud (payload ++ later) 0
  = send_serial_loop dev flg baud payload 0
    ++ send_serial_loop dev flg baud later 0.
Proof.
  induction n as [|n IH]; intros payload Hlen.
  - destruct payload; [|discriminate Hlen]. cbn [app].
    now rewrite (send_serial_loop_unfold dev flg baud [] 0).
  - rewrite (send_serial_loop_unfold dev flg baud (payload ++ later) 0).
    rewrite (send_serial_loop_unfold dev flg baud payload 0).
    rewrite length_app.
    replace (0 <? length payload + length later)%nat with true
      by (symmetry; apply Nat.ltb_lt; lia).
    replace (0 <? length payload)%nat with true
      by (symmetry; apply Nat.ltb_lt; lia).
    assert (Em : chunk_message dev flg baud (payload ++ later) 0
                 = chunk_message dev flg baud payload 0).
    { unfold chunk_message. rewrite !slice_70. cbn [skipn].
      now rewrite firstn_app_short by lia. }
    rewrite Em.
    pose proof (chunk_count dev flg baud payload 0) as Hc.
    replace (count (chunk_message dev flg baud payload 0)) with 70%nat
      by lia.
    cbn [app]. f_equal. cbn [Nat.add].
    rewrite (send_serial_loop_shift dev flg baud
               (length (payload ++ later) - 70) (payload ++ later) 70
               eq_refl).
    rewrite (send_serial_loop_shift dev flg baud
               (length payload - 70) payload 70 eq_refl).
    rewrite skipn_app_short by lia.
    apply IH. rewrite length_skipn. lia.
Qed.

(** X19.  Sending a payload whose length is a multiple of 70 and then another
    one puts the same messages on the link as sending the two joined in
    one call. *)
Theorem send_serial_bytes_app
  (dev : Z) (first later : bytes) (baud : Z) (exclusive : bool) :
  (length first mod 70 = 0)%nat ->
  send_serial_bytes dev (first ++ later) baud exclusive
  = send_serial_bytes dev first baud exclusive
    ++ send_serial_bytes dev later baud exclusive.
Proof.
  intros Hmod. unfold send_serial_bytes.
  apply (send_serial_loop_app dev _ baud later (length first / 70)).
  pose proof (Nat.div_mod_eq (length first) 70). lia.
Qed.

Lemma send_serial_bytes_app_witness :
  send_serial_bytes 3 (repeat 7 70 ++ [1; 2]) 115200 false
  = send_serial_bytes 3 (repeat 7 70) 115200 false
    ++ send_serial_bytes 3 [1; 2] 115200 false.
Proof.
  apply (send_serial_bytes_app 3 (repeat 7 70) [1; 2] 115200 false).
  reflexivity.
Defined.

End TunnelMore.

Module BridgeFacts.
Import Net Tunnel Bridge.

Definition healthy : socket_state :=
  {| sent := []; closed := false; broken := false |}.


Lemma written_spec n c payload :
  let n' := update n c {| sent := sent (n c) ++ payload;
                          closed := closed (n c);
                          broken := broken (n c) |} in
  sent (n' c) = sent (n c) ++ payload
  /\ (forall s, write_fails n' s = write_fails n s)
  /\ (forall s, s <> c -> n' s = n s).
Proof.
  unfold update, write_fails. split; [now rewrite Nat.eqb_refl|]. split.
  - intros s. destruct (Nat.eqb_spec s c) as [->|_]; reflexivity.
  - intros s Hs. apply Nat.eqb_neq in Hs. now rewrite Hs.
Qed.

(** The three ways [TcpBridge.send] can go. *)
Lemma bridge_send_cases b n payload :
  (exists c, client b = Some c /\ write_fails n c = false
     /\ bridge_send b n payload
        = (true, (b, update n c {| sent := sent (n c) ++ payload;
                                   closed := closed (n c);
                                   broken := broken (n c) |})))
  \/ (exists c, client b = Some c /\ write_fails n c = true
        /\ bridge_send b n payload
           = (false, ({| client := None |}, close n c)))
  \/ (client b = None /\ bridge_send b n payload = (false, (b, n))).
Proof.
  unfold bridge_send, close_client, sendall.
  destruct (client b) as [c|] eqn:Ec; [|now right; right].
  destruct (write_fails n c) eqn:F.
  - right; left. now exists c.
  - left. now exists c.
Qed.

(** *** [TcpBridge.send] *)


(** *** [TcpBridge._accept_loop] *)



(** *** The inbound loops *)

Section Inbound.

(** One pass of an inbound loop: it hands [out msg] to the bridge, or
    does nothing when there is nothing to hand over. *)
Variable step : option serial_control -> TcpBridge -> net -> TcpBridge * net.
Variable out : option serial_control -> bytes.

Hypothesis step_sends : forall msg b n,
  (step msg b n = (b, n) /\ out msg = [])
  \/ step msg b n = snd (bridge_send b n (out msg)).

Definition run (msgs : list (option serial_control)) (b : TcpBridge)
  (n : net) : TcpBridge * net :=
  fold_left (fun st msg => step msg (fst st) (snd st)) msgs (b, n).

Lemma run_healthy s : forall msgs b n,
  client b = Some s -> write_fails n s = false ->
  fst (run msgs b n) = b
  /\ sent (snd (run msgs b n) s) = sent (n s) ++ concat (map out msgs)
  /\ (forall s', s' <> s -> snd (run msgs b n) s' = n s').
Proof.
  unfold run. induction msgs as [|msg msgs IH]; intros b n Ec F.
  - cbn. rewrite app_nil_r. now repeat split.
  - cbn [fold_left map concat fst snd].
    destruct (step_sends msg b n) as [[-> ->] | ->].
    + cbn [fst snd app]. now apply IH.
    + destruct (bridge_send_cases b n (out msg))
        as [(c & Ec' & _ & ->) | [(c & Ec' & F' & _) | (Ec' & _)]];
        [|congruence|congruence].
      assert (c = s) as -> by congruence. cbn [fst snd].
      destruct (written_spec n s (out msg)) as (Hs & Hw & Hne).
      cbv zeta in Hs, Hw, Hne.
      set (n' := update n s _) in *.
      destruct (IH b n' Ec) as (Hb & Hsent & Hother).
      { now rewrite Hw. }
      split; [exact Hb|]. split.
      * rewrite Hsent, Hs. now rewrite app_assoc.
      * intros s' Hs'. rewrite (Hother s' Hs'). now apply Hne.
Qed.


End Inbound.

Lemma gps2_to_tcp_recv_sends dev msg b n :
  (gps2_to_tcp_recv dev msg b n = (b, n) /\ announced_nonzero dev msg = [])
  \/ gps2_to_tcp_recv dev msg b n
     = snd (bridge_send b n (announced_nonzero dev msg)).
Proof.
  unfold gps2_to_tcp_recv, announced_nonzero, announced.
  destruct msg as [m|]; [|now left].
  destruct ((0 <? count m)%nat && (device m =? dev)); [|now left].
  cbv zeta. destruct (is_all_zero (firstn (count m) (data m)));
    cbn [negb]; [now left | now right].
Qed.

Lemma mavlink_loop_recv_sends dev msg b n :
  (mavlink_loop_recv dev msg b n = (b, n) /\ announced dev msg = [])
  \/ mavlink_loop_recv dev msg b n
     = snd (bridge_send b n (announced dev msg)).
Proof.
  unfold mavlink_loop_recv, announced.
  destruct msg as [m|]; [|now left].
  destruct ((0 <? count m)%nat && (device m =? dev)); [|now left].
  right. cbv zeta. unfold bridge_send.
  destruct (client b); [|reflexivity].
  now destruct (sendall n s (firstn (count m) (data m))).
Qed.

(** X22.  While the client stays connected and its socket takes writes, the
    inbound loop of [rtk_bridge.py] writes to it the announced bytes of
    every message for its device that are not all zero, each once and in
    the order received; the loop of [uPrecise_forward.py] writes the
    announced bytes of every such message, zero or not.  Neither changes
    the bridge or another socket. *)
Theorem inbound_in_order
  (dev : Z) (msgs : list (option serial_control)) (b : TcpBridge)
  (n : net) (s : sock) :
  client b = Some s -> write_fails n s = false ->
  (fst (gps2_to_tcp_loop dev msgs b n) = b
   /\ sent (snd (gps2_to_tcp_loop dev msgs b n) s)
      = sent (n s) ++ concat (map (announced_nonzero dev) msgs)
   /\ (forall s', s' <> s -> snd (gps2_to_tcp_loop dev msgs b n) s' = n s'))
  /\ (fst (mavlink_loop dev msgs b n) = b
      /\ sent (snd (mavlink_loop dev msgs b n) s)
         = sent (n s) ++ concat (map (announced dev) msgs)
      /\ (forall s', s' <> s -> snd (mavlink_loop dev msgs b n) s' = n s')).
Proof.
  intros Ec F. split.
  - exact (run_healthy (gps2_to_tcp_recv dev) (announced_nonzero dev)
             (gps2_to_tcp_recv_sends dev) s msgs b n Ec F).
  - exact (run_healthy (mavlink_loop_recv dev) (announced dev)
             (mavlink_loop_recv_sends dev) s msgs b n Ec F).
Qed.

(** Two messages for device 3 with a poll without answer in between; the
    second announces two bytes, both zero. *)
Definition inbound_sample : list (option serial_control) :=
  [ Some {| device := 3; flags := 0; timeout := 0; baudrate := 115200;
            count := 2; data := [211; 7] ++ repeat 0 68 |};
    None;
    Some {| device := 3; flags := 0; timeout := 0; baudrate := 115200;
            count := 2; data := repeat 0 70 |} ].

Lemma inbound_in_order_witness :
  sent (snd (gps2_to_tcp_loop 3 inbound_sample {| client := Some 1%nat |}
               (fun _ => healthy)) 1%nat) = [211; 7]
  /\ sent (snd (mavlink_loop 3 inbound_sample {| client := Some 1%nat |}
                  (fun _ => healthy)) 1%nat) = [211; 7; 0; 0].
Proof.
  destruct (inbound_in_order 3 inbound_sample {| client := Some 1%nat |}
              (fun _ => healthy) 1%nat eq_refl eq_refl)
    as [(_ & Hg & _) (_ & Hm & _)].
  split; [exact Hg | exact Hm].
Defined.



End BridgeFacts.

(* ===================================================================== *)
(** * A client of the proxy, from its connection on *)
(* ===================================================================== *)

Module ClientSession.
Import Net Relay ProxyStream Proxy.

(** The [finally] block of [handle_client] ([ntrip_proxy.py], lines
    322-327): the client leaves the registry and its socket is closed. *)
Definition hang_up (c : client) (r : relay) : relay :=
  {| clients := remove_client (clients r) c;
     sockets := close (sockets r) (fst c);
     counters := counters r |}.

(** [handle_client], lines 282-307, up to its keep-alive loop.  [request]
    is what [recv(4096)] returned, [None] when it raised; the answer tells
    whether the client was registered.  Every way out that does not
    register the client goes through the [finally] block. *)
Definition greet (c : client) (request : option bytes)
  (initial_data : bytes) (r : relay) : bool * relay :=
  match request with
  | None => (false, hang_up c r)
  | Some _ =>
      match sendall (sockets r) (fst c) build_ntrip_response with
      | None => (false, hang_up c r)
      | Some n1 =>
          match initial_data with
          | [] =>
              (true, {| clients := add_client (clients r) c;
                        sockets := n1;
                        counters := counters r |})
          | _ :: _ =>
              match sendall n1 (fst c) initial_data with
              | None =>
                  (false, hang_up c {| clients := clients r;
                                       sockets := n1;
                                       counters := counters r |})
              | Some n2 =>
                  (true,
                   {| clients := add_client (clients r) c;
                      sockets := n2;
                      counters :=
                        {| bytes_received := bytes_received (counters r);
                           bytes_sent :=
                             bytes_sent (counters r) + length initial_data;
                           last_activity := last_activity (counters r) |} |})
              end
          end
      end
  end.

End ClientSession.

Module ClientSessionFacts.
Import Bytes Net Relay ProxyStream Proxy Handshake RelayFacts RelayMore
       ClientSession.

(** X24.  The greeting of the proxy is a response its own handshake and the
    handshake of [ntrip_to_rover.py] accept, whatever stream follows it:
    both hand on exactly the bytes after the greeting. *)
Theorem greeting_accepted (stream : bytes) :
  check_response_header (build_ntrip_response ++ stream)
  = Return (build_ntrip_response, stream)
  /\ NtripToRover.check_response (build_ntrip_response ++ stream)
     = Return stream.
Proof.
  split; destruct stream as [|b stream]; vm_compute; reflexivity.
Qed.

Lemma sendall_twice n s first later n1 n2 :
  sendall n s first = Some n1 -> sendall n1 s later = Some n2 ->
  write_fails n s = false
  /\ write_fails n2 s = false
  /\ sent (n2 s) = sent (n s) ++ first ++ later
  /\ (forall s', s' <> s -> sent (n2 s') = sent (n s')).
Proof.
  intros H1 H2.
  destruct (@sendall_spec n s first n1 H1) as (F & Hs & Hne & Hw).
  destruct (@sendall_spec n1 s later n2 H2) as (_ & Hs' & Hne' & Hw').
  split; [exact F|]. split; [now rewrite Hw', Hw|]. split.
  - now rewrite Hs', Hs, app_assoc.
  - intros s' Hd. now rewrite Hne', Hne.
Qed.

(** What [greet] leaves behind when it registers the client. *)
Lemma greet_registered c request initial_data r r' :
  greet c request initial_data r = (true, r') ->
  clients r' = clients r ++ [c]
  /\ write_fails (sockets r) (fst c) = false
  /\ write_fails (sockets r') (fst c) = false
  /\ sent (sockets r' (fst c))
     = sent (sockets r (fst c)) ++ build_ntrip_response ++ initial_data
  /\ (forall s, s <> fst c -> sent (sockets r' s) = sent (sockets r s))
  /\ bytes_sent (counters r')
     = (bytes_sent (counters r) + length initial_data)%nat.
Proof.
  unfold greet. destruct request as [req|]; [|discriminate].
  destruct (sendall (sockets r) (fst c) build_ntrip_response) as [n1|] eqn:E1;
    [|discriminate].
  destruct (@sendall_spec _ _ _ _ E1) as (F & Hs & Hne & Hw).
  destruct initial_data as [|b initial].
  - intros [= <-]. cbn [clients sockets counters length].
    rewrite app_nil_r, Nat.add_0_r, Hw.
    repeat split; try assumption; reflexivity.
  - destruct (sendall n1 (fst c) (b :: initial)) as [n2|] eqn:E2;
      [|discriminate].
    intros [= <-]. cbn [clients sockets counters bytes_sent].
    destruct (sendall_twice _ _ _ _ _ _ E1 E2) as (_ & F2 & Hs2 & Hne2).
    repeat split; try assumption; reflexivity.
Qed.

(** X25.  [handle_client] registers a client only after it has written to it
    the greeting and then the initial data, both whole, and has added the
    length of the initial data to [bytes_sent]; the client then is the
    last of the registry.  A client it does not register has its socket
    closed, is in the registry no more often than before, and the
    counters are as they were.  No other socket is written to. *)
Theorem handle_client_greets
  (c : client) (request : option bytes) (initial_data : bytes)
  (r : relay) :
  let r' := snd (greet c request initial_data r) in
  (forall s, s <> fst c -> sent (sockets r' s) = sent (sockets r s))
  /\ if fst (greet c request initial_data r) then
       clients r' = clients r ++ [c]
       /\ sent (sockets r' (fst c))
          = sent (sockets r (fst c)) ++ build_ntrip_response ++ initial_data
       /\ bytes_sent (counters r')
          = (bytes_sent (counters r) + length initial_data)%nat
     else
       clients r' = remove_client (clients r) c
       /\ closed (sockets r' (fst c)) = true
       /\ counters r' = counters r.
Proof.
  cbv zeta.
  destruct (greet c request initial_data r) as [[|] r'] eqn:E;
    cbn [fst snd].
  - destruct (greet_registered _ _ _ _ _ E) as (Hc & _ & _ & Hs & Hne & Hb).
    now repeat split.
  - assert (Hup : forall n, closed (close n (fst c) (fst c)) = true
                    /\ forall s, s <> fst c ->
                         sent (close n (fst c) s) = sent (n s)).
    { intros n. unfold close, update. split; [now rewrite Nat.eqb_refl|].
      intros s Hs. apply Nat.eqb_neq in Hs. now rewrite Hs. }
    unfold greet in E. destruct request as [req|].
    + destruct (sendall (sockets r) (fst c) build_ntrip_response)
        as [n1|] eqn:E1.
      * destruct (@sendall_spec _ _ _ _ E1) as (_ & _ & Hne & _).
        destruct initial_data as [|b initial]; [discriminate|].
        destruct (sendall n1 (fst c) (b :: initial)) eqn:E2;
          [discriminate|].
        injection E as <-. unfold hang_up. cbn [clients sockets counters].
        destruct (Hup n1) as [Hc Hs]. repeat split; try assumption.
        intros s Hd. now rewrite Hs, Hne.
      * injection E as <-. unfold hang_up. cbn [clients sockets counters].
        destruct (Hup (sockets r)) as [Hc Hs]. now repeat split.
    + injection E as <-. unfold hang_up. cbn [clients sockets counters].
      destruct (Hup (sockets r)) as [Hc Hs]. now repeat split.
Qed.

(** X26.  A rover that connects over a new socket while the proxy runs, and is
    registered by [handle_client] before [forward_ntrip_stream] takes
    further chunks from the caster, finds on its socket the greeting, the
    initial data and those chunks in the order received; the handshake of
    [ntrip_to_rover.py] run on these bytes accepts them and hands on the
    initial data followed by the chunks. *)
Theorem late_joiner_stream
  (c : client) (request initial_data : bytes)
  (outcomes : list recv_outcome) (r r1 : relay) :
  NoDup (map fst (clients r)) ->
  ~ In (fst c) (map fst (clients r)) ->
  sent (sockets r (fst c)) = [] ->
  greet c (Some request) initial_data r = (true, r1) ->
  let received := sent (sockets (forward_loop outcomes r1) (fst c)) in
  received = build_ntrip_response ++ initial_data ++ taken outcomes
  /\ NtripToRover.check_response received
     = Return (initial_data ++ taken outcomes).
Proof.
  intros Hnd Hnew Hempty Hg.
  destruct (greet_registered _ _ _ _ _ Hg) as (Hc & _ & Hok & Hs & _ & _).
  assert (Hserved : served r1 c).
  { unfold served. rewrite Hc. split; [|split].
    - rewrite map_app. cbn [map]. apply NoDup_app; [exact Hnd| |].
      + repeat constructor. intros [].
      + intros s Hin [<-|[]]. contradiction.
    - apply in_or_app. right. now left.
    - exact Hok. }
  destruct (forward_loop_served outcomes r1 c Hserved) as [_ E].
  cbv zeta. rewrite E, Hs, Hempty. cbn [app]. rewrite <- app_assoc.
  split; [reflexivity|].
  generalize (initial_data ++ taken outcomes). intros stream.
  destruct stream as [|b stream]; vm_compute; reflexivity.
Qed.

Definition rover : client := (7%nat, ("10.0.0.7"%string, 2101)).

Definition late_chunks : list recv_outcome :=
  [Received [211; 0; 1] 5; ProxyStream.TimedOut; Received [9] 6].

Definition idle_relay : relay :=
  {| clients := [];
     sockets := fun _ => {| sent := []; closed := false; broken := false |};
     counters := {| bytes_received := 0; bytes_sent := 0;
                    last_activity := 0 |} |}.

Lemma late_joiner_stream_witness :
  NtripToRover.check_response
    (sent (sockets (forward_loop late_chunks
                      (snd (greet rover (Some []) [1; 2] idle_relay)))
             (fst rover)))
  = Return ([1; 2] ++ taken late_chunks).
Proof.
  refine (proj2 (late_joiner_stream rover [] [1; 2] late_chunks idle_relay
                   (snd (greet rover (Some []) [1; 2] idle_relay))
                   _ _ _ _)).
  - constructor.
  - intros [].
  - reflexivity.
  - reflexivity.
Defined.

End ClientSessionFacts.
